(** * storage.py: the points ledger and its two backends

    A shallow embedding of [src/storage.py].  The module defines the
    abstract class [Storage] and two subclasses, [RedisStorage] and
    [InMemoryStorage].  Every method is embedded as a computation in a
    small state-and-exception monad: the state is what the object owns
    (the Redis keyspace, or the dictionary [_data] together with the
    dictionaries it refers to), and a Python exception is a result
    [Raise e] that keeps the effects performed before it was raised. *)

From stdpp Require Import gmap strings list fin_maps.

Local Open Scope Z_scope.

(** ** Python results *)

(** The exceptions the two classes can raise: [KeyError] from a subscript
    on a [dict], [TypeError] from [int(None)], and the client library's
    [redis.ResponseError] for a command the server refuses. *)
Inductive exn : Type :=
  | KeyError (key : string)
  | TypeError
  | ResponseError.

Inductive result (A : Type) : Type :=
  | Ok (a : A)
  | Raise (e : exn).

Arguments Ok {A} a.
Arguments Raise {A} e.

(** ** The monad of method bodies *)

Definition Py (St A : Type) : Type := St → result A * St.

Definition py_ret {St A} (a : A) : Py St A := λ s, (Ok a, s).

Definition py_bind {St A B} (f : A → Py St B) (m : Py St A) : Py St B :=
  λ s, match m s with
       | (Ok a, s') => f a s'
       | (Raise e, s') => (Raise e, s')
       end.

Definition py_raise {St A} (e : exn) : Py St A := λ s, (Raise e, s).

#[global] Instance py_mret St : MRet (Py St) := @py_ret St.
#[global] Instance py_mbind St : MBind (Py St) := @py_bind St.

(** A list comprehension [[f x for x in l]]: the elements are visited in
    order and the first exception ends the loop. *)
Fixpoint comprehension {St A B} (f : A → Py St B) (l : list A) : Py St (list B) :=
  match l with
  | [] => mret []
  | x :: l' => y ← f x; ys ← comprehension f l'; mret (y :: ys)
  end.

(** The value and the final state of a run. *)
Definition returned {St A} (m : Py St A) (s : St) : result A := (m s).1.
Definition final {St A} (m : Py St A) (s : St) : St := (m s).2.

(** ** An insertion-ordered dictionary

    [self._data] is iterated by [items()], so its order is kept: a key
    that is already present keeps its place, a new key goes to the end. *)
Section PyDict.
Context {V : Type}.

Definition pydict : Type := list (string * V).

Fixpoint pd_lookup (k : string) (d : pydict) : option V :=
  match d with
  | [] => None
  | (k', v) :: d' => if decide (k = k') then Some v else pd_lookup k d'
  end.

Definition pd_contains (k : string) (d : pydict) : bool :=
  bool_decide (is_Some (pd_lookup k d)).

Fixpoint pd_insert (k : string) (v : V) (d : pydict) : pydict :=
  match d with
  | [] => [(k, v)]
  | (k', v') :: d' =>
      if decide (k = k') then (k, v) :: d' else (k', v') :: pd_insert k v d'
  end.

Definition pd_keys (d : pydict) : list string := d.*1.
End PyDict.

Arguments pydict V : clear implicits.

(** ** class InMemoryStorage *)

Module InMemoryStorage.

Definition POINTS_USED : string := "POINTS_USED".
Definition POINTS_RECEIVED : string := "POINTS_RECEIVED".

(** Python dictionaries are objects: [_data] holds a reference to each
    user's record, and [add_user_points_used] updates the record through
    the reference that [setdefault] hands back.  [heap] holds the records
    allocated so far, a reference is an index into it.  A record is a
    [dict] from counter name to integer; it is only read and written by
    key, never iterated, so it is a finite map. *)
Definition ref : Type := nat.

Record store : Type := Store {
  _data : pydict ref;
  heap : list (gmap string Z)
}.

(** [__init__]: [self._data = dict()]. *)
Definition init : store := {| _data := []; heap := [] |}.

(** *** The dictionary operations the methods use *)

(** The literal [{}]: a new, empty dictionary. *)
Definition new_dict : Py store ref :=
  λ s, (Ok (length (heap s)), {| _data := _data s; heap := heap s ++ [∅] |}).

(** The record a reference points to. *)
Definition deref (s : store) (r : ref) : gmap string Z :=
  default ∅ (heap s !! r).

(** [k in self._data] *)
Definition data_contains (k : string) : Py store bool :=
  λ s, (Ok (pd_contains k (_data s)), s).

(** [self._data[k]] *)
Definition data_getitem (k : string) : Py store ref :=
  λ s, match pd_lookup k (_data s) with
       | Some r => (Ok r, s)
       | None => (Raise (KeyError k), s)
       end.

(** [self._data.setdefault(k, d)] *)
Definition data_setdefault (k : string) (d : ref) : Py store ref :=
  λ s, match pd_lookup k (_data s) with
       | Some r => (Ok r, s)
       | None => (Ok d, {| _data := pd_insert k d (_data s); heap := heap s |})
       end.

(** [self._data.items()] *)
Definition data_items : Py store (list (string * ref)) :=
  λ s, (Ok (_data s), s).

(** [r.get(k, dflt)] *)
Definition dict_get (r : ref) (k : string) (dflt : Z) : Py store Z :=
  λ s, (Ok (default dflt (deref s r !! k)), s).

(** [r[k]] *)
Definition dict_getitem (r : ref) (k : string) : Py store Z :=
  λ s, match deref s r !! k with
       | Some z => (Ok z, s)
       | None => (Raise (KeyError k), s)
       end.

(** [r[k] = z] *)
Definition dict_setitem (r : ref) (k : string) (z : Z) : Py store unit :=
  λ s, (Ok (), {| _data := _data s; heap := <[r := <[k := z]> (deref s r)]> (heap s) |}).

(** *** The methods *)

Definition user_exists (user_id : string) : Py store bool :=
  data_contains user_id.

Definition get_user_points_used (user_id : string) : Py store Z :=
  v ← data_getitem user_id;
  dict_get v POINTS_USED 0.

Definition add_user_points_used (user_id : string) (num : Z) : Py store unit :=
  d ← new_dict;
  user_data ← data_setdefault user_id d;
  cur ← dict_get user_data POINTS_USED 0;
  dict_setitem user_data POINTS_USED (cur + num).

Definition get_user_points_received (user_id : string) : Py store Z :=
  v ← data_getitem user_id;
  dict_get v POINTS_RECEIVED 0.

Definition add_user_points_received (user_id : string) (num : Z) : Py store unit :=
  d ← new_dict;
  user_data ← data_setdefault user_id d;
  cur ← dict_get user_data POINTS_RECEIVED 0;
  dict_setitem user_data POINTS_RECEIVED (cur + num).

Definition get_users_and_scores : Py store (list (string * Z)) :=
  its ← data_items;
  comprehension (λ '(k, v), x ← dict_getitem v POINTS_RECEIVED; mret (k, x)) its.

End InMemoryStorage.

(** ** class RedisStorage *)

Module RedisStorage.

Definition POINTS_USED : string := "POINTS_USED".
Definition POINTS_RECEIVED : string := "POINTS_RECEIVED".
Definition USERS_LIST_KEY : string := "USERS_LIST".

(** *** The Redis server behind [self._redis]

    The state of a [RedisStorage] is the keyspace of the server it is
    connected to.  The class stores two kinds of values: hashes, whose
    fields hold integers (Redis keeps their decimal text, and [int]
    reads it back), and one set of strings.  The commands below follow
    the Redis command reference: a command on a key that holds the
    other kind of value is refused (WRONGTYPE), and [HINCRBY] works on
    64-bit signed integers.  A refused command raises
    [redis.ResponseError] in the client and leaves the keyspace as it
    was. *)
Inductive rvalue : Type :=
  | RHash (fields : gmap string Z)
  | RSet (members : gset string).

Definition int64 (z : Z) : bool :=
  bool_decide (- 2 ^ 63 ≤ z < 2 ^ 63).

(** [EXISTS key] *)
Definition redis_exists (key : string) : Py (gmap string rvalue) bool :=
  λ db, (Ok (bool_decide (is_Some (db !! key))), db).

(** [HGET key field]: [None] when the key or the field is missing. *)
Definition hget (key field : string) : Py (gmap string rvalue) (option Z) :=
  λ db, match db !! key with
        | None => (Ok None, db)
        | Some (RHash h) => (Ok (h !! field), db)
        | Some (RSet _) => (Raise ResponseError, db)
        end.

(** [HINCRBY key field n]: a missing key is created as an empty hash and
    a missing field counts as 0; the new value is returned. *)
Definition hincrby (key field : string) (n : Z) : Py (gmap string rvalue) Z :=
  λ db, if negb (int64 n) then (Raise ResponseError, db) else
        match db !! key with
        | Some (RSet _) => (Raise ResponseError, db)
        | o =>
            let h := match o with Some (RHash h) => h | _ => ∅ end in
            let v := default 0 (h !! field) + n in
            if int64 v
            then (Ok v, <[key := RHash (<[field := v]> h)]> db)
            else (Raise ResponseError, db)
        end.

(** [HMSET key field value [field value ...]] *)
Definition hmset (key : string) (mapping : list (string * Z))
    : Py (gmap string rvalue) bool :=
  λ db, match db !! key with
        | Some (RSet _) => (Raise ResponseError, db)
        | o =>
            let h := match o with Some (RHash h) => h | _ => ∅ end in
            (Ok true,
             <[key := RHash (foldl (λ h' '(f, v), <[f := v]> h') h mapping)]> db)
        end.

(** [SADD key member]: the number of members added. *)
Definition sadd (key member : string) : Py (gmap string rvalue) Z :=
  λ db, match db !! key with
        | Some (RHash _) => (Raise ResponseError, db)
        | o =>
            let m := match o with Some (RSet m) => m | _ => ∅ end in
            (Ok (if decide (member ∈ m) then 0 else 1),
             <[key := RSet ({[member]} ∪ m)]> db)
        end.

(** [SMEMBERS key]: the empty set when the key is missing. *)
Definition smembers (key : string) : Py (gmap string rvalue) (gset string) :=
  λ db, match db !! key with
        | None => (Ok ∅, db)
        | Some (RSet m) => (Ok m, db)
        | Some (RHash _) => (Raise ResponseError, db)
        end.

(** Python's [int(x)] on what [hget] returns: [int(None)] is a
    [TypeError]. *)
Definition py_int {St} (x : option Z) : Py St Z :=
  match x with
  | Some z => mret z
  | None => py_raise TypeError
  end.

(** The keyspace of a server nothing has been written to. *)
Definition init : gmap string rvalue := ∅.

(** *** The methods *)

Definition _create_user_entry (user_id : string) : Py (gmap string rvalue) unit :=
  _ ← hmset user_id [(POINTS_USED, 0); (POINTS_RECEIVED, 0)];
  _ ← sadd USERS_LIST_KEY user_id;
  mret ().

Definition user_exists (user_id : string) : Py (gmap string rvalue) bool :=
  redis_exists user_id.

Definition get_user_points_used (user_id : string) : Py (gmap string rvalue) Z :=
  x ← hget user_id POINTS_USED;
  py_int x.

Definition add_user_points_used (user_id : string) (num : Z)
    : Py (gmap string rvalue) unit :=
  _ ← hincrby user_id POINTS_USED num;
  mret ().

Definition get_user_points_received (user_id : string) : Py (gmap string rvalue) Z :=
  x ← hget user_id POINTS_RECEIVED;
  py_int x.

Definition add_user_points_received (user_id : string) (num : Z)
    : Py (gmap string rvalue) unit :=
  _ ← hincrby user_id POINTS_RECEIVED num;
  mret ().

Definition get_users_and_scores : Py (gmap string rvalue) (list (string * Z)) :=
  users ← smembers USERS_LIST_KEY;
  comprehension (λ user, x ← get_user_points_received user; mret (user, x))
                (elements users).

End RedisStorage.

(** ** class Storage

    The abstract class lists the six methods a storage provider has;
    the two subclasses override all of them. *)
Class Storage (St : Type) : Type := {
  user_exists : string → Py St bool;
  get_user_points_used : string → Py St Z;
  add_user_points_used : string → Z → Py St unit;
  get_user_points_received : string → Py St Z;
  add_user_points_received : string → Z → Py St unit;
  get_users_and_scores : Py St (list (string * Z))
}.

#[global] Instance in_memory_storage : Storage InMemoryStorage.store := {|
  user_exists := InMemoryStorage.user_exists;
  get_user_points_used := InMemoryStorage.get_user_points_used;
  add_user_points_used := InMemoryStorage.add_user_points_used;
  get_user_points_received := InMemoryStorage.get_user_points_received;
  add_user_points_received := InMemoryStorage.add_user_points_received;
  get_users_and_scores := InMemoryStorage.get_users_and_scores
|}.

#[global] Instance redis_storage : Storage (gmap string RedisStorage.rvalue) := {|
  user_exists := RedisStorage.user_exists;
  get_user_points_used := RedisStorage.get_user_points_used;
  add_user_points_used := RedisStorage.add_user_points_used;
  get_user_points_received := RedisStorage.get_user_points_received;
  add_user_points_received := RedisStorage.add_user_points_received;
  get_users_and_scores := RedisStorage.get_users_and_scores
|}.

(** *** Sequences of calls

    A caller only reaches a storage through the six methods.  [run cs s]
    is the state after the calls [cs], made one after the other from
    [s]; a call that raises leaves the state it had reached. *)
Inductive call : Type :=
  | UserExists (user_id : string)
  | GetUserPointsUsed (user_id : string)
  | AddUserPointsUsed (user_id : string) (num : Z)
  | GetUserPointsReceived (user_id : string)
  | AddUserPointsReceived (user_id : string) (num : Z)
  | GetUsersAndScores.

Definition exec `{Storage St} (c : call) (s : St) : St :=
  match c with
  | UserExists u => final (user_exists u) s
  | GetUserPointsUsed u => final (get_user_points_used u) s
  | AddUserPointsUsed u n => final (add_user_points_used u n) s
  | GetUserPointsReceived u => final (get_user_points_received u) s
  | AddUserPointsReceived u n => final (add_user_points_received u n) s
  | GetUsersAndScores => final get_users_and_scores s
  end.

Definition run `{Storage St} (cs : list call) (s : St) : St :=
  foldl (λ s' c, exec c s') s cs.

(** The amount a call adds, if it is one of the two [add] methods. *)
Definition amount (c : call) : option Z :=
  match c with
  | AddUserPointsUsed _ n | AddUserPointsReceived _ n => Some n
  | _ => None
  end.

Definition nonneg (c : call) : bool :=
  match amount c with
  | Some n => bool_decide (0 ≤ n)
  | None => true
  end.

Definition nonneg_amounts (cs : list call) : bool := forallb nonneg cs.

(** The two counters, and the [add] call of each. *)
Inductive counter : Type := Used | Received.

Definition add (c : counter) (user_id : string) (num : Z) : call :=
  match c with
  | Used => AddUserPointsUsed user_id num
  | Received => AddUserPointsReceived user_id num
  end.

(** The field that holds the counter; the two classes use the same two
    names. *)
Definition field_name (c : counter) : string :=
  match c with
  | Used => InMemoryStorage.POINTS_USED
  | Received => InMemoryStorage.POINTS_RECEIVED
  end.

(** The sum of the amounts [ns]. *)
Definition total (ns : list Z) : Z := foldr Z.add 0 ns.

(** How often [user_id] occurs among the pairs [l]. *)
Definition occurrences (user_id : string) (l : list (string * Z)) : nat :=
  length (filter (λ p, p.1 = user_id) l).

(** [get_users_and_scores] returns a list in which [user_id] occurs
    exactly once. *)
Definition enumerated_once `{Storage St} (user_id : string) (s : St) : Prop :=
  ∃ l, returned get_users_and_scores s = Ok l ∧ occurrences user_id l = 1%nat.

(** *** What an [InMemoryStorage] holds *)

(** The record of [user_id], if it is a key of [_data]. *)
Definition record_of (s : InMemoryStorage.store) (user_id : string)
    : option (gmap string Z) :=
  InMemoryStorage.deref s <$> pd_lookup user_id (InMemoryStorage._data s).

(** The field [field] of the record of [user_id]. *)
Definition field_of (s : InMemoryStorage.store) (user_id field : string) : option Z :=
  record_of s user_id ≫= (λ r, r !! field).

(** The shape the two [add] methods keep: the keys of [_data] are
    distinct, and so are the references, each to an allocated record. *)
Definition well_formed (s : InMemoryStorage.store) : Prop :=
  NoDup (pd_keys (InMemoryStorage._data s)) ∧
  NoDup (InMemoryStorage._data s).*2 ∧
  Forall (λ r, (r < length (InMemoryStorage.heap s))%nat) (InMemoryStorage._data s).*2.

(** The body the two [add] methods of [InMemoryStorage] share, with the
    counter's field name as a parameter. *)
Definition add_points (field user_id : string) (num : Z)
    : Py InMemoryStorage.store unit :=
  d ← InMemoryStorage.new_dict;
  user_data ← InMemoryStorage.data_setdefault user_id d;
  cur ← InMemoryStorage.dict_get user_data field 0;
  InMemoryStorage.dict_setitem user_data field (cur + num).

(** The body the two [get] methods of [InMemoryStorage] share. *)
Definition get_points (field user_id : string) : Py InMemoryStorage.store Z :=
  v ← InMemoryStorage.data_getitem user_id;
  InMemoryStorage.dict_get v field 0.

(** *** What a [RedisStorage] does to one counter *)

(** The body the two [add] methods of [RedisStorage] share, with the
    counter's field name as a parameter, and the body the two [get]
    methods share. *)
Definition incr_points (field user_id : string) (num : Z)
    : Py (gmap string RedisStorage.rvalue) unit :=
  _ ← RedisStorage.hincrby user_id field num;
  mret ().

Definition read_points (field user_id : string)
    : Py (gmap string RedisStorage.rvalue) Z :=
  x ← RedisStorage.hget user_id field;
  RedisStorage.py_int x.

(** *** A counter that never goes down

    A later read of a counter, after the calls [cs], does not return
    less than an earlier read did. *)
Definition never_decreases `{Storage St} (s : St) (cs : list call)
    (user_id : string) : Prop :=
  (∀ a b, returned (get_user_points_used user_id) s = Ok a →
          returned (get_user_points_used user_id) (run cs s) = Ok b → a ≤ b) ∧
  (∀ a b, returned (get_user_points_received user_id) s = Ok a →
          returned (get_user_points_received user_id) (run cs s) = Ok b → a ≤ b).

(** [user_id]'s counter [k] reads as at least [a]. *)
Definition in_memory_at_least (k : counter) (user_id : string) (a : Z)
    (s : InMemoryStorage.store) : Prop :=
  ∃ rec, record_of s user_id = Some rec ∧ a ≤ default 0 (rec !! field_name k).

Definition redis_at_least (k : counter) (user_id : string) (a : Z)
    (db : gmap string RedisStorage.rvalue) : Prop :=
  ∃ h b, db !! user_id = Some (RedisStorage.RHash h) ∧
         h !! field_name k = Some b ∧ a ≤ b.

(** *** The two counters through the interface *)

(** The [add] and the [get] method of a counter, in any storage. *)
Definition add_method `{Storage St} (k : counter) : string → Z → Py St unit :=
  match k with
  | Used => add_user_points_used
  | Received => add_user_points_received
  end.

Definition get_method `{Storage St} (k : counter) : string → Py St Z :=
  match k with
  | Used => get_user_points_used
  | Received => get_user_points_received
  end.

Definition other (k : counter) : counter :=
  match k with
  | Used => Received
  | Received => Used
  end.

(** What a read says the counter is: the value it returns, and 0 when
    it raises. *)
Definition read_or_zero (r : result Z) : Z :=
  match r with
  | Ok a => a
  | Raise _ => 0
  end.

(** A method call returned, it did not raise. *)
Definition returns {A} (r : result A) : bool :=
  match r with
  | Ok _ => true
  | Raise _ => false
  end.

(** The calls [cs] give points to [user_id] on counter [k]. *)
Definition gives (k : counter) (user_id : string) (cs : list call) : Prop :=
  ∃ n, add k user_id n ∈ cs.

(** [add_user_points_received(user_id, num)] seen in a list of scores:
    the score of [user_id] goes up by [num], the rest stays. *)
Definition bump (user_id : string) (num : Z) (p : string * Z) : string * Z :=
  if decide (p.1 = user_id) then (p.1, p.2 + num) else p.

(** *** What a Redis keyspace holds *)

(** The hash [HINCRBY] and [HMSET] work on: the one at the key, the
    empty one when the key is missing, none when the key holds a set. *)
Definition hash_of (db : gmap string RedisStorage.rvalue) (key : string)
    : option (gmap string Z) :=
  match db !! key with
  | Some (RedisStorage.RHash h) => Some h
  | Some (RedisStorage.RSet _) => None
  | None => Some ∅
  end.

(** The members of the set of known users, when the key is missing or
    holds a set. *)
Definition known_users (db : gmap string RedisStorage.rvalue)
    : option (gset string) :=
  match db !! RedisStorage.USERS_LIST_KEY with
  | Some (RedisStorage.RSet m) => Some m
  | Some (RedisStorage.RHash _) => None
  | None => Some ∅
  end.

(** Every known user has a hash with a received-points field: the shape
    [_create_user_entry] establishes. *)
Definition registered (db : gmap string RedisStorage.rvalue) : Prop :=
  ∃ m, known_users db = Some m ∧
       ∀ u, u ∈ m → ∃ h z, db !! u = Some (RedisStorage.RHash h) ∧
                           h !! RedisStorage.POINTS_RECEIVED = Some z.

(** Redis refuses none of the [add] calls in [cs], made from [db]. *)
Fixpoint redis_accepts (cs : list call) (db : gmap string RedisStorage.rvalue)
    : bool :=
  match cs with
  | [] => true
  | c :: cs' =>
      match c with
      | AddUserPointsUsed u n =>
          returns (returned (RedisStorage.add_user_points_used u n) db)
      | AddUserPointsReceived u n =>
          returns (returned (RedisStorage.add_user_points_received u n) db)
      | _ => true
      end && redis_accepts cs' (exec c db)
  end.

(** *** Calls on a [RedisStorage], [_create_user_entry] included *)

Inductive redis_call : Type :=
  | Public (c : call)
  | CreateUserEntry (user_id : string).

Definition redis_exec (rc : redis_call) (db : gmap string RedisStorage.rvalue)
    : gmap string RedisStorage.rvalue :=
  match rc with
  | Public c => exec c db
  | CreateUserEntry u => final (RedisStorage._create_user_entry u) db
  end.

Definition redis_run (rcs : list redis_call) (db : gmap string RedisStorage.rvalue)
    : gmap string RedisStorage.rvalue :=
  foldl (λ db' rc, redis_exec rc db') db rcs.

(** The user a call is about. *)
Definition user_of (c : call) : option string :=
  match c with
  | UserExists u | GetUserPointsUsed u | AddUserPointsUsed u _
  | GetUserPointsReceived u | AddUserPointsReceived u _ => Some u
  | GetUsersAndScores => None
  end.

Definition redis_user_of (rc : redis_call) : option string :=
  match rc with
  | Public c => user_of c
  | CreateUserEntry u => Some u
  end.

(** No call is about a user whose id is the key of the set of known
    users. *)
Definition avoids_users_list (rcs : list redis_call) : bool :=
  forallb (λ rc, bool_decide (redis_user_of rc ≠ Some RedisStorage.USERS_LIST_KEY))
          rcs.

(** The users [_create_user_entry] is called for. *)
Definition created (rcs : list redis_call) : list string :=
  omap (λ rc, match rc with CreateUserEntry u => Some u | Public _ => None end) rcs.

(** The shape of a keyspace that only [RedisStorage] has written, for
    users not named as the set's key: no key but the set's holds a set,
    the known users are [m], and each has a received-points field. *)
Definition redis_kept (db : gmap string RedisStorage.rvalue) (m : gset string)
    : Prop :=
  (∀ key, key ≠ RedisStorage.USERS_LIST_KEY → is_Some (hash_of db key)) ∧
  known_users db = Some m ∧
  ∀ u, u ∈ m → ∃ h z, db !! u = Some (RedisStorage.RHash h) ∧
                      h !! RedisStorage.POINTS_RECEIVED = Some z.

(** *** The two backends side by side *)

(** A Redis keyspace and a local store hold the same records: the hash
    of a user in the one has the fields of the user's record in the
    other, and a user is a key of both or of none. *)
Definition same_records (db : gmap string RedisStorage.rvalue)
    (s : InMemoryStorage.store) : Prop :=
  ∀ u, db !! u = RedisStorage.RHash <$> record_of s u.

(** *** A store read off the calls that made it *)

(** What the call [c] adds to the counter [k] of [user_id]. *)
Definition amount_for (k : counter) (user_id : string) (c : call) : Z :=
  match k, c with
  | Used, AddUserPointsUsed u n => if decide (u = user_id) then n else 0
  | Received, AddUserPointsReceived u n => if decide (u = user_id) then n else 0
  | _, _ => 0
  end.

(** All that the calls [cs] add to the counter [k] of [user_id]. *)
Definition added (k : counter) (user_id : string) (cs : list call) : Z :=
  total (amount_for k user_id <$> cs).

(** The user an [add] call writes. *)
Definition writer (c : call) : option string :=
  match c with
  | AddUserPointsUsed u _ | AddUserPointsReceived u _ => Some u
  | _ => None
  end.

(** The users written by [cs], in the order of their first write. *)
Definition note_user (users : list string) (c : call) : list string :=
  match writer c with
  | Some u => if decide (u ∈ users) then users else users ++ [u]
  | None => users
  end.

Definition first_writes (cs : list call) : list string := foldl note_user [] cs.

(** * Properties *)

(** ** The monad *)

(** Unfolds the monad's operations, to run a method body by hand. *)
Ltac unfold_py :=
  unfold mbind, py_mbind, py_bind, mret, py_mret, py_ret, py_raise.

(** A comprehension over a function that only reads the state. *)
Lemma comprehension_pure {St A B} (f : A → Py St B) (g : A → option B) e l s :
  (∀ x, f x s = (from_option Ok (Raise e) (g x), s)) →
  comprehension f l s = (from_option Ok (Raise e) (mapM g l), s).
Proof.
  intros Hf. induction l as [|x l IH]; [done|].
  cbn [comprehension]. unfold mbind, py_mbind, py_bind at 1.
  rewrite Hf. cbn [mapM]. destruct (g x) as [y|]; cbn; [|done].
  unfold py_bind. rewrite IH. by destruct (mapM g l).
Qed.

Lemma comprehension_final {St A B} (f : A → Py St B) (l : list A) s :
  (∀ x, final (f x) s = s) → final (comprehension f l) s = s.
Proof.
  intros Hf. induction l as [|x l IH]; [done|].
  unfold final in *. cbn [comprehension]. unfold mbind, py_mbind, py_bind at 1.
  specialize (Hf x). destruct (f x s) as [[y|e] s']; cbn in *; subst s'; [|done].
  unfold py_bind. destruct (comprehension f l s) as [[ys|e] s']; by cbn in *.
Qed.

(** ** Sequences of calls *)

Lemma run_cons `{Storage St} (c : call) (cs : list call) (s : St) :
  run (c :: cs) s = run cs (exec c s).
Proof. reflexivity. Qed.

Lemma nonneg_amounts_cons (c : call) (cs : list call) :
  nonneg_amounts (c :: cs) = true ↔ nonneg c = true ∧ nonneg_amounts cs = true.
Proof. apply andb_true_iff. Qed.

Lemma nonneg_add (c : counter) (u : string) (n : Z) :
  nonneg (add c u n) = true → 0 ≤ n.
Proof. destruct c; cbn; apply bool_decide_eq_true. Qed.

Lemma call_cases (c : call) :
  (∃ k u n, c = add k u n) ∨ amount c = None.
Proof.
  destruct c as [u|u|u n|u|u n|]; eauto.
  - left. by exists Used, u, n.
  - left. by exists Received, u, n.
Qed.

(** ** The insertion-ordered dictionary *)

Section PyDictFacts.
Context {V : Type}.
Implicit Types (d : pydict V) (k : string) (v : V).

Lemma pd_lookup_None k d : pd_lookup k d = None ↔ k ∉ pd_keys d.
Proof.
  unfold pd_keys. induction d as [|[k' v'] d IH]; cbn.
  - split; [intros _; apply not_elem_of_nil | done].
  - rewrite not_elem_of_cons, <- IH. case_decide; [|tauto].
    split; [done | by intros []].
Qed.

Lemma pd_lookup_Some k v d : pd_lookup k d = Some v → (k, v) ∈ d.
Proof.
  induction d as [|[k' v'] d IH]; cbn; [done|].
  case_decide as Hk; [subst k'; intros [= ->]; left | right; auto].
Qed.

Lemma pd_contains_false k d : pd_contains k d = false ↔ pd_lookup k d = None.
Proof.
  unfold pd_contains. rewrite bool_decide_eq_false, <- eq_None_not_Some. done.
Qed.

Lemma pd_insert_new k v d : pd_lookup k d = None → pd_insert k v d = d ++ [(k, v)].
Proof.
  induction d as [|[k' v'] d IH]; cbn; [done|].
  case_decide; [done|]. intros ?. by rewrite IH.
Qed.

Lemma pd_lookup_app k d d' :
  pd_lookup k (d ++ d') = match pd_lookup k d with
                          | Some v => Some v
                          | None => pd_lookup k d'
                          end.
Proof. induction d as [|[k' v'] d IH]; cbn; [done|]. by case_decide. Qed.

Lemma pd_lookup_snoc_ne k k' v d :
  k ≠ k' → pd_lookup k (d ++ [(k', v)]) = pd_lookup k d.
Proof.
  intros ?. rewrite pd_lookup_app. destruct (pd_lookup k d); [done|].
  cbn. by rewrite decide_False.
Qed.

Lemma pd_lookup_snoc k v d :
  pd_lookup k d = None → pd_lookup k (d ++ [(k, v)]) = Some v.
Proof. intros E. rewrite pd_lookup_app, E. cbn. by rewrite decide_True. Qed.

End PyDictFacts.

(** ** InMemoryStorage: what each method does *)

Section InMemoryFacts.
Import InMemoryStorage.
Implicit Types (s : store) (u f : string) (n : Z) (r : ref).

Lemma add_user_points_used_eq u n :
  InMemoryStorage.add_user_points_used u n = add_points POINTS_USED u n.
Proof. reflexivity. Qed.

Lemma add_user_points_received_eq u n :
  InMemoryStorage.add_user_points_received u n = add_points POINTS_RECEIVED u n.
Proof. reflexivity. Qed.

Lemma get_user_points_used_eq u :
  InMemoryStorage.get_user_points_used u = get_points POINTS_USED u.
Proof. reflexivity. Qed.

Lemma get_user_points_received_eq u :
  InMemoryStorage.get_user_points_received u = get_points POINTS_RECEIVED u.
Proof. reflexivity. Qed.

(** The first write for a user: one record is allocated and appended. *)
Lemma add_points_new s f u n :
  pd_lookup u (_data s) = None →
  add_points f u n s =
    (Ok (), {| _data := _data s ++ [(u, length (heap s))];
               heap := heap s ++ [{[f := n]}] |}).
Proof.
  intros E. unfold add_points, new_dict, data_setdefault, dict_get,
    dict_setitem, deref. unfold_py. cbn. rewrite E. cbn.
  rewrite lookup_app_r, Nat.sub_diag by done. cbn.
  rewrite lookup_empty. cbn.
  rewrite pd_insert_new by done.
  rewrite insert_app_r_alt, Nat.sub_diag by done. cbn.
  by rewrite insert_empty.
Qed.

(** A later write: the record is updated in place; the fresh [{}] that
    was passed to [setdefault] stays behind, referenced by nothing. *)
Lemma add_points_old s f u n r :
  pd_lookup u (_data s) = Some r → (r < length (heap s))%nat →
  add_points f u n s =
    (Ok (), {| _data := _data s;
               heap := <[r := <[f := default 0 (deref s r !! f) + n]> (deref s r)]>
                         (heap s) ++ [∅] |}).
Proof.
  intros E Hr. unfold add_points, new_dict, data_setdefault, dict_get,
    dict_setitem, deref. unfold_py. cbn. rewrite E. cbn.
  rewrite lookup_app_l by done.
  by rewrite insert_app_l by done.
Qed.

Lemma get_points_spec s f u :
  get_points f u s =
    (match record_of s u with
     | Some rec => Ok (default 0 (rec !! f))
     | None => Raise (KeyError u)
     end, s).
Proof.
  unfold get_points, record_of, data_getitem, dict_get. unfold_py.
  by destruct (pd_lookup u (_data s)).
Qed.

Lemma user_exists_spec s u :
  InMemoryStorage.user_exists u s = (Ok (bool_decide (is_Some (record_of s u))), s).
Proof.
  unfold InMemoryStorage.user_exists, data_contains, pd_contains, record_of.
  do 2 f_equal. apply bool_decide_ext. by rewrite fmap_is_Some.
Qed.

Lemma get_users_and_scores_spec s :
  InMemoryStorage.get_users_and_scores s =
    (from_option Ok (Raise (KeyError POINTS_RECEIVED))
       (mapM (λ kr, (kr.1,.) <$> deref s kr.2 !! POINTS_RECEIVED) (_data s)), s).
Proof.
  unfold InMemoryStorage.get_users_and_scores, mbind at 1, py_mbind, py_bind, data_items.
  apply comprehension_pure. intros [k r]. cbn.
  unfold dict_getitem. unfold_py.
  by destruct (deref s r !! POINTS_RECEIVED).
Qed.

(** *** The reading methods leave the store alone *)

Lemma get_points_final s f u : final (get_points f u) s = s.
Proof. unfold final. by rewrite get_points_spec. Qed.

Lemma get_users_and_scores_final s :
  final InMemoryStorage.get_users_and_scores s = s.
Proof. unfold final. by rewrite get_users_and_scores_spec. Qed.

(** *** Well-formed stores *)

Lemma init_well_formed : well_formed init.
Proof. repeat split; cbn; constructor. Qed.

Lemma well_formed_ref s u r :
  well_formed s → pd_lookup u (_data s) = Some r → (r < length (heap s))%nat.
Proof.
  intros (_ & _ & Hall) E%pd_lookup_Some.
  rewrite Forall_forall in Hall. apply Hall.
  apply list_elem_of_fmap. by exists (u, r).
Qed.

Lemma well_formed_ref_inj s u u' r :
  well_formed s →
  pd_lookup u (_data s) = Some r → pd_lookup u' (_data s) = Some r → u = u'.
Proof.
  intros (_ & Hnd & _) [i Hi]%pd_lookup_Some%list_elem_of_lookup
    [j Hj]%pd_lookup_Some%list_elem_of_lookup.
  assert (i = j) as ->.
  { eapply NoDup_lookup; [exact Hnd| |]; rewrite list_lookup_fmap.
    - by rewrite Hi. - by rewrite Hj. }
  congruence.
Qed.

Lemma add_points_well_formed s f u n :
  well_formed s → well_formed (final (add_points f u n) s).
Proof.
  intros Hwf. unfold final.
  destruct (pd_lookup u (_data s)) as [r|] eqn:E.
  - rewrite (add_points_old s f u n r) by eauto using well_formed_ref.
    destruct Hwf as (Hk & Hr & Hall). repeat split; cbn; [done..|].
    rewrite length_app, length_insert. eapply Forall_impl; [exact Hall|].
    cbn. lia.
  - rewrite add_points_new by done.
    destruct Hwf as (Hk & Hr & Hall). unfold well_formed, pd_keys in *.
    cbn [_data heap snd]. rewrite !fmap_app, length_app. cbn. repeat split.
    + apply NoDup_app. repeat split; [done| |apply NoDup_singleton].
      intros k Hin ->%list_elem_of_singleton. by apply pd_lookup_None in E.
    + apply NoDup_app. repeat split; [done| |apply NoDup_singleton].
      intros r Hin ->%list_elem_of_singleton.
      rewrite Forall_forall in Hall. apply Hall in Hin. lia.
    + apply Forall_app. split; [|repeat constructor; lia].
      eapply Forall_impl; [exact Hall|]. cbn. lia.
Qed.

Lemma exec_well_formed (c : call) s : well_formed s → well_formed (exec c s).
Proof.
  destruct c; cbn; try done.
  - by rewrite get_user_points_used_eq, get_points_final.
  - rewrite add_user_points_used_eq. apply add_points_well_formed.
  - by rewrite get_user_points_received_eq, get_points_final.
  - rewrite add_user_points_received_eq. apply add_points_well_formed.
  - by rewrite get_users_and_scores_final.
Qed.

Lemma run_well_formed (cs : list call) s : well_formed s → well_formed (run cs s).
Proof.
  revert s. induction cs as [|c cs IH]; intros s Hwf; cbn; [done|].
  apply IH. by apply exec_well_formed.
Qed.

Lemma reachable_well_formed (cs : list call) : well_formed (run cs init).
Proof. apply run_well_formed, init_well_formed. Qed.

Lemma add_points_record s f u n :
  well_formed s →
  record_of (final (add_points f u n) s) u =
    Some (<[f := default 0 (field_of s u f) + n]> (default ∅ (record_of s u))).
Proof.
  intros Hwf. unfold final, field_of, record_of.
  destruct (pd_lookup u (_data s)) as [r|] eqn:E.
  - pose proof (well_formed_ref _ _ _ Hwf E) as Hr.
    rewrite (add_points_old s f u n r) by done. cbn. rewrite E. cbn.
    unfold deref at 1. cbn.
    rewrite lookup_app_l by (by rewrite length_insert).
    by rewrite list_lookup_insert_eq by done.
  - rewrite add_points_new by done. cbn.
    rewrite pd_lookup_snoc by done. cbn. unfold deref. cbn.
    rewrite lookup_app_r, Nat.sub_diag by done. cbn.
    by rewrite insert_empty.
Qed.

Lemma add_points_frame s f u n u' :
  well_formed s → u' ≠ u →
  record_of (final (add_points f u n) s) u' = record_of s u'.
Proof.
  intros Hwf Hne. unfold final, record_of.
  destruct (pd_lookup u (_data s)) as [r|] eqn:E.
  - pose proof (well_formed_ref _ _ _ Hwf E) as Hr.
    rewrite (add_points_old s f u n r) by done. cbn.
    destruct (pd_lookup u' (_data s)) as [r'|] eqn:E'; [|done]. cbn.
    f_equal. unfold deref. cbn.
    pose proof (well_formed_ref _ _ _ Hwf E') as Hr'.
    rewrite lookup_app_l by (by rewrite length_insert).
    rewrite list_lookup_insert_ne; [done|].
    intros ->. apply Hne. eauto using well_formed_ref_inj.
  - rewrite add_points_new by done. cbn.
    rewrite pd_lookup_snoc_ne by done.
    destruct (pd_lookup u' (_data s)) as [r'|] eqn:E'; [|done]. cbn.
    f_equal. unfold deref. cbn.
    by rewrite lookup_app_l by eauto using well_formed_ref.
Qed.

Lemma get_points_field s f u v :
  field_of s u f = Some v → returned (get_points f u) s = Ok v.
Proof.
  unfold field_of, returned. rewrite get_points_spec.
  destruct (record_of s u) as [rec|]; cbn; [|done]. by intros ->.
Qed.

Lemma exec_add (c : counter) u n s :
  exec (add c u n) s = final (add_points (field_name c) u n) s.
Proof. by destruct c. Qed.

(** Repeated writes to one counter add up. *)
Lemma adds_field (c : counter) u (ns : list Z) s :
  well_formed s → ns ≠ [] →
  field_of (run (add c u <$> ns) s) u (field_name c) =
    Some (default 0 (field_of s u (field_name c)) + total ns).
Proof.
  revert s. induction ns as [|n ns IH]; intros s Hwf Hne; [done|].
  rewrite fmap_cons, run_cons.
  assert (field_of (exec (add c u n) s) u (field_name c) =
          Some (default 0 (field_of s u (field_name c)) + n)) as Hstep.
  { rewrite exec_add. unfold field_of at 1.
    rewrite add_points_record by done. cbn. by rewrite lookup_insert_eq. }
  destruct ns as [|n' ns'].
  - cbn -[exec]. rewrite Hstep. f_equal. lia.
  - rewrite IH; [|by apply exec_well_formed|done].
    rewrite Hstep. cbn. f_equal. lia.
Qed.

End InMemoryFacts.

Create HintDb storage.
#[global] Hint Resolve init_well_formed exec_well_formed run_well_formed
  reachable_well_formed add_points_well_formed well_formed_ref : storage.

(** ** RedisStorage: what each method does *)

Section RedisFacts.
Import RedisStorage.
Implicit Types (db : gmap string rvalue) (u f : string) (n : Z).

Lemma redis_add_user_points_used_eq u n :
  RedisStorage.add_user_points_used u n = incr_points POINTS_USED u n.
Proof. reflexivity. Qed.

Lemma redis_add_user_points_received_eq u n :
  RedisStorage.add_user_points_received u n = incr_points POINTS_RECEIVED u n.
Proof. reflexivity. Qed.

Lemma redis_get_user_points_used_eq u :
  RedisStorage.get_user_points_used u = read_points POINTS_USED u.
Proof. reflexivity. Qed.

Lemma redis_get_user_points_received_eq u :
  RedisStorage.get_user_points_received u = read_points POINTS_RECEIVED u.
Proof. reflexivity. Qed.

Lemma read_points_spec db f u :
  read_points f u db =
    (match db !! u with
     | None => Raise TypeError
     | Some (RSet _) => Raise ResponseError
     | Some (RHash h) => from_option Ok (Raise TypeError) (h !! f)
     end, db).
Proof.
  unfold read_points, hget. unfold_py.
  destruct (db !! u) as [[h|m]|]; [|done..].
  by destruct (h !! f).
Qed.

Lemma read_points_Ok db f u a :
  returned (read_points f u) db = Ok a ↔
  ∃ h, db !! u = Some (RHash h) ∧ h !! f = Some a.
Proof.
  unfold returned. rewrite read_points_spec. cbn.
  destruct (db !! u) as [[h|m]|].
  - split.
    + destruct (h !! f) as [z|] eqn:E; cbn; intros [= <-]. eauto.
    + intros (h' & [= <-] & ->). done.
  - split; [done | by intros (? & [=] & _)].
  - split; [done | by intros (? & [=] & _)].
Qed.

Lemma read_points_final db f u : final (read_points f u) db = db.
Proof. unfold final. by rewrite read_points_spec. Qed.

Lemma redis_get_users_and_scores_final db :
  final RedisStorage.get_users_and_scores db = db.
Proof.
  unfold final, RedisStorage.get_users_and_scores, mbind at 1, py_mbind, py_bind,
    smembers.
  assert (∀ l, (comprehension
    (λ user, x ← RedisStorage.get_user_points_received user; mret (user, x))
    l db).2 = db) as Hl.
  { intros l. apply comprehension_final. intros user.
    unfold final, mbind, py_mbind, py_bind.
    rewrite redis_get_user_points_received_eq, read_points_spec.
    by destruct (db !! user) as [[h|m]|]; [destruct (h !! _)|..]. }
  by destruct (db !! USERS_LIST_KEY) as [[h|m]|].
Qed.

(** A write either is refused and changes nothing, or sets one field of
    one hash. *)
Lemma incr_points_final db f u n :
  final (incr_points f u n) db = db ∨
  ∃ h, (db !! u = Some (RHash h) ∨ db !! u = None ∧ h = ∅) ∧
       final (incr_points f u n) db
         = <[u := RHash (<[f := default 0 (h !! f) + n]> h)]> db.
Proof.
  unfold final, incr_points, hincrby. unfold_py.
  destruct (int64 n); cbn; [|by left].
  destruct (db !! u) as [[h|m]|] eqn:E; cbn; [| by left |].
  - destruct (int64 _); cbn; [right; exists h; eauto | by left].
  - destruct (int64 _); cbn; [right; exists ∅; eauto | by left].
Qed.

End RedisFacts.

(** ** Counters under sequences of calls *)

Section Monotone.

Lemma in_memory_exec_read (c : call) (s : InMemoryStorage.store) :
  amount c = None → exec c s = s.
Proof.
  destruct c; cbn; try done; intros _.
  - by rewrite get_user_points_used_eq, get_points_final.
  - by rewrite get_user_points_received_eq, get_points_final.
  - apply get_users_and_scores_final.
Qed.

Lemma redis_exec_read (c : call) (db : gmap string RedisStorage.rvalue) :
  amount c = None → exec c db = db.
Proof.
  destruct c; cbn; try done; intros _.
  - by rewrite redis_get_user_points_used_eq, read_points_final.
  - by rewrite redis_get_user_points_received_eq, read_points_final.
  - apply redis_get_users_and_scores_final.
Qed.

Lemma redis_exec_add (k : counter) u n (db : gmap string RedisStorage.rvalue) :
  exec (add k u n) db = final (incr_points (field_name k) u n) db.
Proof. by destruct k. Qed.

Lemma in_memory_exec_at_least k u a (c : call) s :
  well_formed s → nonneg c = true →
  in_memory_at_least k u a s → in_memory_at_least k u a (exec c s).
Proof.
  intros Hwf Hc (rec & Hrec & Ha).
  destruct (call_cases c) as [(k' & u' & n & ->)|Hread];
    [|rewrite in_memory_exec_read by done; by exists rec].
  apply nonneg_add in Hc. rewrite exec_add.
  destruct (decide (u = u')) as [<-|Hu];
    [|exists rec; by rewrite add_points_frame].
  eexists. split; [by apply add_points_record|].
  unfold field_of. rewrite Hrec. cbn.
  destruct (decide (field_name k = field_name k')) as [<-|Hk].
  - rewrite lookup_insert_eq. cbn. lia.
  - by rewrite lookup_insert_ne.
Qed.

Lemma in_memory_run_at_least k u a (cs : list call) s :
  well_formed s → nonneg_amounts cs = true →
  in_memory_at_least k u a s → in_memory_at_least k u a (run cs s).
Proof.
  revert s. induction cs as [|c cs IH]; intros s Hwf Hcs Ha; [done|].
  apply nonneg_amounts_cons in Hcs as [Hc Hcs]. rewrite run_cons.
  apply IH; auto using in_memory_exec_at_least with storage.
Qed.

Lemma redis_exec_at_least k u a (c : call) db :
  nonneg c = true → redis_at_least k u a db → redis_at_least k u a (exec c db).
Proof.
  intros Hc (h & b & Hh & Hb & Hab).
  destruct (call_cases c) as [(k' & u' & n & ->)|Hread];
    [|rewrite redis_exec_read by done; by exists h, b].
  apply nonneg_add in Hc. rewrite redis_exec_add.
  destruct (incr_points_final db (field_name k') u' n)
    as [->|(h' & Hh' & ->)]; [by exists h, b|].
  destruct (decide (u = u')) as [<-|Hu];
    [|exists h, b; by rewrite lookup_insert_ne by done].
  assert (h' = h) as -> by (destruct Hh' as [?|[? _]]; congruence).
  unfold redis_at_least. rewrite lookup_insert_eq.
  destruct (decide (field_name k = field_name k')) as [<-|Hk].
  - eexists _, _. split; [done|]. rewrite lookup_insert_eq, Hb. cbn.
    split; [done|lia].
  - eexists _, b. split; [done|]. by rewrite lookup_insert_ne.
Qed.

Lemma redis_run_at_least k u a (cs : list call) db :
  nonneg_amounts cs = true →
  redis_at_least k u a db → redis_at_least k u a (run cs db).
Proof.
  revert db. induction cs as [|c cs IH]; intros db Hcs Ha; [done|].
  apply nonneg_amounts_cons in Hcs as [Hc Hcs]. rewrite run_cons.
  apply IH; auto using redis_exec_at_least.
Qed.

(** A read that returns [a] says the counter is at least [a], and a
    counter that is at least [a] reads as some [b] with [a ≤ b]. *)
Lemma in_memory_read_at_least k u a s :
  returned (get_points (field_name k) u) s = Ok a → in_memory_at_least k u a s.
Proof.
  unfold returned. rewrite get_points_spec. cbn.
  destruct (record_of s u) as [rec|] eqn:E; [|done].
  intros [= <-]. exists rec. split; [done|lia].
Qed.

Lemma in_memory_at_least_read k u a s :
  in_memory_at_least k u a s →
  ∃ b, returned (get_points (field_name k) u) s = Ok b ∧ a ≤ b.
Proof.
  intros (rec & Hrec & Ha). unfold returned. rewrite get_points_spec, Hrec.
  eauto.
Qed.

Lemma redis_read_at_least k u a db :
  returned (read_points (field_name k) u) db = Ok a → redis_at_least k u a db.
Proof. intros (h & Hh & Ha)%read_points_Ok. by exists h, a. Qed.

Lemma redis_at_least_read k u a db :
  redis_at_least k u a db →
  ∃ b, returned (read_points (field_name k) u) db = Ok b ∧ a ≤ b.
Proof.
  intros (h & b & Hh & Hb & Hab). exists b. split; [|done].
  apply read_points_Ok. eauto.
Qed.

(** With amounts that are not negative, a counter that has been read
    can still be read after any calls, and reads no less. *)
Lemma in_memory_read_grows k u a (cs : list call) s :
  well_formed s → nonneg_amounts cs = true →
  returned (get_points (field_name k) u) s = Ok a →
  ∃ b, returned (get_points (field_name k) u) (run cs s) = Ok b ∧ a ≤ b.
Proof.
  intros Hwf Hcs Ha%in_memory_read_at_least.
  by apply in_memory_at_least_read, in_memory_run_at_least.
Qed.

Lemma redis_read_grows k u a (cs : list call) db :
  nonneg_amounts cs = true →
  returned (read_points (field_name k) u) db = Ok a →
  ∃ b, returned (read_points (field_name k) u) (run cs db) = Ok b ∧ a ≤ b.
Proof.
  intros Hcs Ha%redis_read_at_least.
  by apply redis_at_least_read, redis_run_at_least.
Qed.

End Monotone.

(** ** InMemoryStorage: enumerating a new user *)

Section Enumerate.
Import InMemoryStorage.

Lemma mapM_snoc {A B} (g : A → option B) (l : list A) (x : A) :
  mapM g (l ++ [x]) = ys ← mapM g l; y ← g x; Some (ys ++ [y]).
Proof.
  induction l as [|x' l IH]; cbn.
  - by destruct (g x).
  - destruct (g x') as [y'|]; cbn; [|done]. rewrite IH.
    destruct (mapM g l); cbn; [|done]. by destruct (g x).
Qed.

Lemma mapM_keys {A} (g : string * A → option Z) (l : list (string * A)) l' :
  mapM (λ kr, (kr.1,.) <$> g kr) l = Some l' → l'.*1 = l.*1.
Proof.
  intros H%mapM_Some. induction H as [|[k r] [k' z] l l' Hx _ IH]; [done|].
  cbn in *. destruct (g (k, r)); [|done]. injection Hx as <- _. by f_equal.
Qed.

Lemma occurrences_absent (u : string) (l : list (string * Z)) :
  u ∉ l.*1 → occurrences u l = 0%nat.
Proof.
  unfold occurrences. induction l as [|[k z] l IH]; [done|].
  cbn [fmap list_fmap fst]. intros [Hk Hl]%not_elem_of_cons.
  by rewrite filter_cons_False, IH by (cbn; congruence).
Qed.

Lemma occurrences_snoc (u : string) (z : Z) (l : list (string * Z)) :
  occurrences u (l ++ [(u, z)]) = S (occurrences u l).
Proof.
  unfold occurrences. rewrite filter_app, length_app.
  rewrite filter_cons_True by done. cbn. lia.
Qed.

(** Two writes for a user that is not a key: the first makes the record,
    the second updates the record the first has made. *)
Lemma in_memory_two_adds (s : store) (u : string) (k1 k2 : counter) (n1 n2 : Z) :
  pd_lookup u (_data s) = None →
  run [add k1 u n1; add k2 u n2] s =
    {| _data := _data s ++ [(u, length (heap s))];
       heap := (heap s ++
                 [<[field_name k2 :=
                      default 0 (({[field_name k1 := n1]} : gmap string Z)
                                   !! field_name k2) + n2]>
                    {[field_name k1 := n1]}]) ++ [∅] |}.
Proof.
  intros E. rewrite !run_cons, !exec_add. cbn [run foldl].
  unfold final at 2. rewrite add_points_new by done. cbn [snd].
  unfold final.
  rewrite (add_points_old _ _ _ _ (length (heap s)));
    [|by apply pd_lookup_snoc|cbn; rewrite length_app; cbn; lia].
  cbn [snd _data heap]. unfold deref. cbn [heap].
  rewrite lookup_app_r, Nat.sub_diag by done. cbn [lookup list_lookup default].
  by rewrite insert_app_r_alt, Nat.sub_diag by done.
Qed.

(** The keys of a dictionary are distinct, so no user is listed twice. *)
Lemma in_memory_enumeration_nodup (s : store) (l : list (string * Z)) :
  well_formed s →
  returned InMemoryStorage.get_users_and_scores s = Ok l → NoDup l.*1.
Proof.
  intros (Hk & _) Hl. unfold returned in Hl.
  rewrite get_users_and_scores_spec in Hl. cbn in Hl.
  destruct (mapM _ (_data s)) as [l'|] eqn:El; [|done].
  injection Hl as ->. by rewrite (mapM_keys _ _ _ El).
Qed.

End Enumerate.

(** ** RedisStorage: the set of known users *)

Section RedisKnownUsers.
Import RedisStorage.

Lemma redis_get_missing (db : gmap string RedisStorage.rvalue) (user_id : string) :
  db !! user_id = None →
  returned (RedisStorage.get_user_points_used user_id) db = Raise TypeError ∧
  returned (RedisStorage.get_user_points_received user_id) db = Raise TypeError.
Proof.
  intros E.
  rewrite redis_get_user_points_used_eq, redis_get_user_points_received_eq.
  unfold returned. by rewrite !read_points_spec, E.
Qed.

(** No method of the class writes the set of known users: an [add] for
    any user whose id is not the set's own key leaves it as it was. *)
Lemma redis_add_keeps_known_users (db : gmap string RedisStorage.rvalue)
    (k : counter) (user_id : string) (num : Z) :
  user_id ≠ RedisStorage.USERS_LIST_KEY →
  exec (add k user_id num) db !! RedisStorage.USERS_LIST_KEY
    = db !! RedisStorage.USERS_LIST_KEY.
Proof.
  intros Hne. rewrite redis_exec_add.
  destruct (incr_points_final db (field_name k) user_id num)
    as [->|(h & _ & ->)]; [done|].
  by rewrite lookup_insert_ne.
Qed.

(** So the key [USERS_LIST] never comes to hold a set, whatever is
    called, and [get_users_and_scores] never returns a pair: it returns
    the empty list, or raises when a user named [USERS_LIST] has made
    the key a hash. *)
Lemma redis_users_list_never_set (cs : list call) (db : gmap string rvalue) :
  (∀ m, db !! USERS_LIST_KEY ≠ Some (RSet m)) →
  ∀ m, run cs db !! USERS_LIST_KEY ≠ Some (RSet m).
Proof.
  revert db. induction cs as [|c cs IH]; intros db Hdb; [done|].
  rewrite run_cons. apply IH.
  destruct (call_cases c) as [(k & u & n & ->)|Hread];
    [|by rewrite redis_exec_read].
  rewrite redis_exec_add.
  destruct (incr_points_final db (field_name k) u n)
    as [->|(h & _ & ->)]; [done|].
  intros m. destruct (decide (u = USERS_LIST_KEY)) as [->|Hne].
  - by rewrite lookup_insert_eq.
  - by rewrite lookup_insert_ne.
Qed.

Lemma redis_never_enumerates (cs : list call) :
  let db := run cs RedisStorage.init in
  returned RedisStorage.get_users_and_scores db = Ok [] ∨
  returned RedisStorage.get_users_and_scores db = Raise ResponseError.
Proof.
  intros db.
  pose proof (redis_users_list_never_set cs RedisStorage.init) as Hset.
  fold db in Hset.
  destruct (db !! USERS_LIST_KEY) as [[h|m]|] eqn:E.
  - right. unfold returned, RedisStorage.get_users_and_scores, smembers.
    unfold_py. by rewrite E.
  - exfalso. eapply Hset; [|done]. intros m'. unfold RedisStorage.init.
    by rewrite lookup_empty.
  - left. unfold returned, RedisStorage.get_users_and_scores, smembers.
    unfold_py. by rewrite E, elements_empty.
Qed.

End RedisKnownUsers.

(** * Scenarios *)

(** A fresh local store, [add_user_points_received("alice", 10)]: the
    read returns 10 and the enumeration is [[("alice", 10)]]. *)
Example scenario_received_then_enumerate :
  let s := run [AddUserPointsReceived "alice" 10] InMemoryStorage.init in
  returned (InMemoryStorage.get_user_points_received "alice") s = Ok 10 ∧
  returned InMemoryStorage.get_users_and_scores s = Ok [("alice", 10)].
Proof. vm_compute. split; reflexivity. Qed.

(** The enumeration follows the order in which the users were first
    written. *)
Example scenario_enumeration_order :
  returned InMemoryStorage.get_users_and_scores
    (run [AddUserPointsReceived "zoe" 1; AddUserPointsReceived "adam" 2;
          AddUserPointsReceived "zoe" 3; AddUserPointsUsed "adam" 4]
       InMemoryStorage.init)
  = Ok [("zoe", 4); ("adam", 2)].
Proof. vm_compute. reflexivity. Qed.

(** What [_create_user_entry] would do before a first write: both fields
    are there and the user is enumerated. *)
Example scenario_create_user_entry :
  let db := final (RedisStorage.add_user_points_used "alice" 5)
              (final (RedisStorage._create_user_entry "alice") RedisStorage.init) in
  returned (RedisStorage.get_user_points_used "alice") db = Ok 5 ∧
  returned (RedisStorage.get_user_points_received "alice") db = Ok 0 ∧
  returned RedisStorage.get_users_and_scores db = Ok [("alice", 0)].
Proof. vm_compute. repeat split. Qed.

(** * The specified properties *)

(** ** The remote backend *)

(** C1 at the failing input: on an empty keyspace,
    [add_user_points_used("alice", 5)] makes the key [alice], so
    [user_exists] is true, but the hash has the one field [POINTS_USED],
    the set [USERS_LIST] is not written, [get_users_and_scores] returns
    the empty list and [get_user_points_received("alice")] raises. *)
Theorem redis_first_add_not_enumerated :
  let db := run [AddUserPointsUsed "alice" 5] RedisStorage.init in
  returned (RedisStorage.user_exists "alice") db = Ok true ∧
  db !! "alice" = Some (RedisStorage.RHash {[RedisStorage.POINTS_USED := 5]}) ∧
  db !! RedisStorage.USERS_LIST_KEY = None ∧
  returned RedisStorage.get_users_and_scores db = Ok [] ∧
  returned (RedisStorage.get_user_points_received "alice") db = Raise TypeError.
Proof. vm_compute. repeat split. Qed.

(** C2 at the failing input: on an empty keyspace, reading either
    counter of the never-seen user [dave] raises [TypeError], because
    [hget] returns [None] and [int(None)] is not defined. *)
Theorem redis_get_unseen_raises :
  returned (RedisStorage.get_user_points_used "dave") RedisStorage.init
    = Raise TypeError ∧
  returned (RedisStorage.get_user_points_received "dave") RedisStorage.init
    = Raise TypeError.
Proof. by apply redis_get_missing. Qed.

(** ** The local backend *)

(** C3: for [InMemoryStorage], [get_user_points_used] and
    [get_user_points_received] raise [KeyError] when the user is not a
    key of the store at all, and return 0 when the user is a key whose
    record lacks the counter that is asked for. *)
Theorem in_memory_get_missing (s : InMemoryStorage.store) (user_id : string) :
  (record_of s user_id = None →
     returned (InMemoryStorage.get_user_points_used user_id) s
       = Raise (KeyError user_id) ∧
     returned (InMemoryStorage.get_user_points_received user_id) s
       = Raise (KeyError user_id)) ∧
  (∀ rec, record_of s user_id = Some rec →
     (rec !! InMemoryStorage.POINTS_USED = None →
        returned (InMemoryStorage.get_user_points_used user_id) s = Ok 0) ∧
     (rec !! InMemoryStorage.POINTS_RECEIVED = None →
        returned (InMemoryStorage.get_user_points_received user_id) s = Ok 0)).
Proof.
  rewrite get_user_points_used_eq, get_user_points_received_eq.
  unfold returned. rewrite !get_points_spec. split.
  - by intros ->.
  - intros rec ->. cbn. by split; intros ->.
Qed.

Lemma in_memory_get_missing_witness :
  returned (InMemoryStorage.get_user_points_used "dave") InMemoryStorage.init
    = Raise (KeyError "dave") ∧
  returned (InMemoryStorage.get_user_points_used "erin")
    (run [AddUserPointsReceived "erin" 1] InMemoryStorage.init) = Ok 0 ∧
  returned (InMemoryStorage.get_user_points_received "erin")
    (run [AddUserPointsUsed "erin" 1] InMemoryStorage.init) = Ok 0.
Proof.
  split; [|split].
  - apply (in_memory_get_missing InMemoryStorage.init "dave"). reflexivity.
  - eapply (in_memory_get_missing _ "erin"); vm_compute; reflexivity.
  - eapply (in_memory_get_missing _ "erin"); vm_compute; reflexivity.
Defined.

(** C4: on a fresh [InMemoryStorage] [user_exists] is false, and after
    any non-empty sequence of [add_user_points_used(user_id, n_i)] with
    every [n_i ≥ 0], [get_user_points_used(user_id)] returns the sum of
    the amounts and [user_exists(user_id)] is true. *)
Theorem in_memory_used_accumulates (user_id : string) :
  returned (InMemoryStorage.user_exists user_id) InMemoryStorage.init = Ok false ∧
  ∀ ns : list Z, ns ≠ [] → Forall (λ n, 0 ≤ n) ns →
    let s := run (AddUserPointsUsed user_id <$> ns) InMemoryStorage.init in
    returned (InMemoryStorage.get_user_points_used user_id) s = Ok (total ns) ∧
    returned (InMemoryStorage.user_exists user_id) s = Ok true.
Proof.
  split; [done|]. intros ns Hne _ s.
  pose proof (adds_field Used user_id ns InMemoryStorage.init
                init_well_formed Hne) as Hf.
  change (add Used user_id) with (AddUserPointsUsed user_id) in Hf.
  fold s in Hf. cbn in Hf. split.
  - rewrite get_user_points_used_eq. by apply get_points_field.
  - unfold returned. rewrite user_exists_spec. cbn. f_equal.
    apply bool_decide_eq_true. unfold field_of in Hf.
    by destruct (record_of s user_id).
Qed.

Lemma in_memory_used_accumulates_witness :
  returned (InMemoryStorage.get_user_points_used "bob")
    (run (AddUserPointsUsed "bob" <$> [5; 3]) InMemoryStorage.init) = Ok 8 ∧
  returned (InMemoryStorage.user_exists "bob")
    (run (AddUserPointsUsed "bob" <$> [5; 3]) InMemoryStorage.init) = Ok true.
Proof.
  apply (proj2 (in_memory_used_accumulates "bob") [5; 3]).
  - discriminate.
  - repeat constructor; lia.
Defined.

(** C5: on a fresh [InMemoryStorage] that only receives
    [add_user_points_used("carol", 2)], [get_users_and_scores] raises
    [KeyError('POINTS_RECEIVED')] instead of returning a pair. *)
Theorem in_memory_enumerate_used_only :
  returned InMemoryStorage.get_users_and_scores
    (run [AddUserPointsUsed "carol" 2] InMemoryStorage.init)
  = Raise (KeyError "POINTS_RECEIVED").
Proof. vm_compute. reflexivity. Qed.

(** ** Enumeration *)

(** C6 as it is stated fails.  On a fresh [InMemoryStorage], two calls
    of [add_user_points_used] for a new user make [get_users_and_scores]
    raise, so no list is returned; so do two calls of
    [add_user_points_received] for a new user when another user has no
    received points yet; on an empty Redis keyspace, two calls of
    [add_user_points_received] for a new user leave the list that
    [get_users_and_scores] returns empty. *)
Lemma new_user_not_enumerated_once :
  ¬ enumerated_once "u"
      (run [AddUserPointsUsed "u" 1; AddUserPointsUsed "u" 1] InMemoryStorage.init) ∧
  ¬ enumerated_once "u"
      (run [AddUserPointsReceived "u" 1; AddUserPointsReceived "u" 1]
         (run [AddUserPointsUsed "carol" 2] InMemoryStorage.init)) ∧
  ¬ enumerated_once "u"
      (run [AddUserPointsReceived "u" 1; AddUserPointsReceived "u" 1]
         RedisStorage.init).
Proof.
  split; [|split]; intros (l & Hl & Hocc); vm_compute in Hl.
  - discriminate.
  - discriminate.
  - injection Hl as <-. discriminate.
Qed.

(** C6, amended: for [InMemoryStorage], in a store that calls can lead
    to and whose enumeration succeeds, two [add] calls for the same user
    that is not yet a key, at least one of them
    [add_user_points_received], make [get_users_and_scores] return a
    list in which the user occurs exactly once. *)
Theorem in_memory_new_user_enumerated_once (cs : list call) (user_id : string)
    (k1 k2 : counter) (n1 n2 : Z) (l0 : list (string * Z)) :
  let s := run cs InMemoryStorage.init in
  returned (InMemoryStorage.user_exists user_id) s = Ok false →
  returned InMemoryStorage.get_users_and_scores s = Ok l0 →
  k1 = Received ∨ k2 = Received →
  enumerated_once user_id (run [add k1 user_id n1; add k2 user_id n2] s).
Proof.
  intros s Hnew Hl0 Hk.
  assert (well_formed s) as Hwf by (subst s; auto with storage).
  assert (pd_lookup user_id (InMemoryStorage._data s) = None) as E.
  { apply pd_contains_false. by injection Hnew. }
  unfold returned in Hl0. rewrite get_users_and_scores_spec in Hl0. cbn in Hl0.
  destruct (mapM _ (InMemoryStorage._data s)) as [l|] eqn:El; [|done].
  injection Hl0 as ->.
  unfold enumerated_once. change (@get_users_and_scores _ _)
    with InMemoryStorage.get_users_and_scores.
  unfold returned. rewrite get_users_and_scores_spec.
  rewrite in_memory_two_adds by done. cbn [fst InMemoryStorage._data].
  rewrite mapM_snoc.
  erewrite (Forall_mapM_ext _ _ (InMemoryStorage._data s)); [rewrite El|].
  - cbn [mbind option_bind snd fst]. unfold InMemoryStorage.deref at 1.
    cbn [InMemoryStorage.heap].
    rewrite lookup_app_l by (rewrite length_app; cbn; lia).
    rewrite lookup_app_r, Nat.sub_diag by done.
    cbn [lookup list_lookup default from_option id].
    assert (∃ z, (<[field_name k2 :=
      default 0 (({[field_name k1 := n1]} : gmap string Z) !! field_name k2) + n2]>
      ({[field_name k1 := n1]} : gmap string Z))
        !! InMemoryStorage.POINTS_RECEIVED = Some z) as [z ->].
    { change InMemoryStorage.POINTS_RECEIVED with (field_name Received).
      destruct (decide (field_name k2 = field_name Received)) as [->|Hne].
      - rewrite lookup_insert_eq. eauto.
      - rewrite lookup_insert_ne by done.
        destruct Hk as [-> | ->]; [|done]. rewrite lookup_singleton_eq. eauto. }
    cbn. eexists. split; [done|].
    rewrite occurrences_snoc, occurrences_absent; [done|].
    rewrite (mapM_keys _ _ _ El). by apply pd_lookup_None.
  - destruct Hwf as (_ & _ & Hall). rewrite Forall_fmap in Hall.
    eapply Forall_impl; [exact Hall|]. intros [k r] Hr. cbn in *.
    unfold InMemoryStorage.deref. cbn.
    by rewrite !lookup_app_l by (rewrite ?length_app; cbn; lia).
Qed.

Lemma in_memory_new_user_enumerated_once_witness :
  enumerated_once "bob"
    (run [add Used "bob" 5; add Received "bob" 2]
       (run [AddUserPointsReceived "alice" 10] InMemoryStorage.init)).
Proof.
  eapply (in_memory_new_user_enumerated_once
            [AddUserPointsReceived "alice" 10] "bob" Used Received 5 2).
  - vm_compute. reflexivity.
  - vm_compute. reflexivity.
  - right. reflexivity.
Defined.

(** ** Sums *)

(** C7: for [InMemoryStorage] and any user, adding 3 and then 4 received
    points gives the same [get_user_points_received] as adding 7 once
    and as adding 4 and then 3: on a fresh store all three return 7, and
    after any earlier calls all three return the same value. *)
Theorem in_memory_received_commutes (user_id : string) :
  let get := returned (InMemoryStorage.get_user_points_received user_id) in
  let adds ns := run (AddUserPointsReceived user_id <$> ns) in
  (get (adds [3; 4] InMemoryStorage.init) = Ok 7 ∧
   get (adds [7] InMemoryStorage.init) = Ok 7 ∧
   get (adds [4; 3] InMemoryStorage.init) = Ok 7) ∧
  ∀ cs : list call,
    let s := run cs InMemoryStorage.init in
    get (adds [3; 4] s) = get (adds [7] s) ∧
    get (adds [7] s) = get (adds [4; 3] s).
Proof.
  intros get adds.
  assert (∀ s ns, well_formed s → ns ≠ [] →
    get (adds ns s) =
      Ok (default 0 (field_of s user_id InMemoryStorage.POINTS_RECEIVED)
          + total ns)) as Hsum.
  { intros s ns Hwf Hne. unfold get, adds.
    rewrite get_user_points_received_eq. apply get_points_field.
    by apply (adds_field Received). }
  split.
  - by rewrite !Hsum by (done || auto with storage).
  - intros cs s.
    by rewrite !Hsum by (done || subst s; auto with storage).
Qed.

(** C8 as it is stated fails: an [add] with a negative amount lowers the
    counter.  After [add_user_points_used("u", 5)] the counter reads 5,
    after [add_user_points_used("u", -3)] it reads 2, in both backends. *)
Lemma counters_decrease_on_negative_amount :
  ¬ never_decreases (run [AddUserPointsUsed "u" 5] InMemoryStorage.init)
      [AddUserPointsUsed "u" (-3)] "u" ∧
  ¬ never_decreases (run [AddUserPointsUsed "u" 5] RedisStorage.init)
      [AddUserPointsUsed "u" (-3)] "u".
Proof.
  split; intros [Hused _]; specialize (Hused 5 2).
  - assert (5 ≤ 2) by (apply Hused; vm_compute; reflexivity). lia.
  - assert (5 ≤ 2) by (apply Hused; vm_compute; reflexivity). lia.
Qed.

(** C8, amended: under every sequence of calls whose amounts are all
    [≥ 0], neither counter of a user goes down, in either backend: a
    read after the calls does not return less than a read before them.
    The local store is any store that calls can lead to, the Redis
    keyspace is any keyspace. *)
Theorem counters_never_decrease (cs0 cs : list call) (user_id : string)
    (db : gmap string RedisStorage.rvalue) :
  nonneg_amounts cs = true →
  never_decreases (run cs0 InMemoryStorage.init) cs user_id ∧
  never_decreases db cs user_id.
Proof.
  intros Hcs.
  assert (well_formed (run cs0 InMemoryStorage.init)) as Hwf
    by auto with storage.
  split; split; intros a b Ha Hb.
  - destruct (in_memory_read_grows Used _ _ _ _ Hwf Hcs Ha) as (b' & Hb' & ?).
    pose proof (eq_trans (eq_sym Hb') Hb) as [= ->]. done.
  - destruct (in_memory_read_grows Received _ _ _ _ Hwf Hcs Ha) as (b' & Hb' & ?).
    pose proof (eq_trans (eq_sym Hb') Hb) as [= ->]. done.
  - destruct (redis_read_grows Used _ _ _ _ Hcs Ha) as (b' & Hb' & ?).
    pose proof (eq_trans (eq_sym Hb') Hb) as [= ->]. done.
  - destruct (redis_read_grows Received _ _ _ _ Hcs Ha) as (b' & Hb' & ?).
    pose proof (eq_trans (eq_sym Hb') Hb) as [= ->]. done.
Qed.

Lemma counters_never_decrease_witness :
  never_decreases (run [AddUserPointsUsed "bob" 5] InMemoryStorage.init)
    [AddUserPointsUsed "bob" 3; GetUsersAndScores; AddUserPointsReceived "bob" 0]
    "bob" ∧
  never_decreases (run [AddUserPointsUsed "bob" 5] RedisStorage.init)
    [AddUserPointsUsed "bob" 3; GetUsersAndScores; AddUserPointsReceived "bob" 0]
    "bob".
Proof.
  apply (counters_never_decrease [AddUserPointsUsed "bob" 5]
    [AddUserPointsUsed "bob" 3; GetUsersAndScores; AddUserPointsReceived "bob" 0]).
  reflexivity.
Defined.

(** ** Frames *)

(** C9: for [InMemoryStorage], in any store a sequence of calls can
    lead to, [add_user_points_used(u, n)] changes nothing but the
    [POINTS_USED] field of [u]: every other field of [u]'s record, so
    [POINTS_RECEIVED], present or absent, stays as it was, and so does
    the record of every other user, present or absent.  The same holds
    for [add_user_points_received] and [POINTS_RECEIVED]. *)
Theorem in_memory_add_frame (cs : list call) (user_id : string) (num : Z) :
  let s := run cs InMemoryStorage.init in
  let s_used := final (InMemoryStorage.add_user_points_used user_id num) s in
  let s_received := final (InMemoryStorage.add_user_points_received user_id num) s in
  ((∀ field, field ≠ InMemoryStorage.POINTS_USED →
      field_of s_used user_id field = field_of s user_id field) ∧
   (∀ other, other ≠ user_id → record_of s_used other = record_of s other)) ∧
  ((∀ field, field ≠ InMemoryStorage.POINTS_RECEIVED →
      field_of s_received user_id field = field_of s user_id field) ∧
   (∀ other, other ≠ user_id → record_of s_received other = record_of s other)).
Proof.
  intros s s_used s_received.
  assert (well_formed s) as Hwf by (subst s; auto with storage).
  assert (∀ f field, field ≠ f →
    field_of (final (add_points f user_id num) s) user_id field
    = field_of s user_id field) as Hfield.
  { intros f field Hne. unfold field_of. rewrite add_points_record by done.
    cbn. rewrite lookup_insert_ne by done.
    destruct (record_of s user_id); [done|]. apply lookup_empty. }
  subst s_used s_received.
  rewrite add_user_points_used_eq, add_user_points_received_eq.
  repeat split; auto using add_points_frame.
Qed.

Lemma in_memory_add_frame_witness :
  let s := run [AddUserPointsReceived "alice" 10; AddUserPointsUsed "bob" 5]
             InMemoryStorage.init in
  field_of (final (InMemoryStorage.add_user_points_used "alice" 2) s)
      "alice" InMemoryStorage.POINTS_RECEIVED
    = field_of s "alice" InMemoryStorage.POINTS_RECEIVED ∧
  record_of (final (InMemoryStorage.add_user_points_used "alice" 2) s) "bob"
    = record_of s "bob" ∧
  field_of (final (InMemoryStorage.add_user_points_received "bob" 2) s)
      "bob" InMemoryStorage.POINTS_USED
    = field_of s "bob" InMemoryStorage.POINTS_USED ∧
  record_of (final (InMemoryStorage.add_user_points_received "bob" 2) s) "alice"
    = record_of s "alice".
Proof.
  intros s.
  pose proof (in_memory_add_frame
    [AddUserPointsReceived "alice" 10; AddUserPointsUsed "bob" 5] "alice" 2) as Ha.
  pose proof (in_memory_add_frame
    [AddUserPointsReceived "alice" 10; AddUserPointsUsed "bob" 5] "bob" 2) as Hb.
  split; [|split; [|split]].
  - apply Ha. discriminate.
  - apply Ha. discriminate.
  - apply Hb. discriminate.
  - apply Hb. discriminate.
Defined.

(** C10: for [InMemoryStorage], the four reading methods return the
    store as they found it, whatever they return or raise; so after
    [get_user_points_used] or [get_user_points_received] has raised
    [KeyError] for a user that is not a key, no record has been made
    and [user_exists] still returns false. *)
Theorem in_memory_reads_keep_store (s : InMemoryStorage.store) (user_id : string) :
  (final (InMemoryStorage.user_exists user_id) s = s ∧
   final (InMemoryStorage.get_user_points_used user_id) s = s ∧
   final (InMemoryStorage.get_user_points_received user_id) s = s ∧
   final InMemoryStorage.get_users_and_scores s = s) ∧
  (returned (InMemoryStorage.user_exists user_id) s = Ok false →
   (returned (InMemoryStorage.get_user_points_used user_id) s
      = Raise (KeyError user_id) ∧
    returned (InMemoryStorage.user_exists user_id)
      (final (InMemoryStorage.get_user_points_used user_id) s) = Ok false) ∧
   (returned (InMemoryStorage.get_user_points_received user_id) s
      = Raise (KeyError user_id) ∧
    returned (InMemoryStorage.user_exists user_id)
      (final (InMemoryStorage.get_user_points_received user_id) s) = Ok false)).
Proof.
  rewrite get_user_points_used_eq, get_user_points_received_eq.
  rewrite !get_points_final, get_users_and_scores_final.
  split; [done|]. intros Hex. unfold returned in *.
  rewrite !get_points_spec. rewrite user_exists_spec in Hex |- *.
  cbn in *. injection Hex as Hex. apply bool_decide_eq_false in Hex.
  rewrite <- eq_None_not_Some in Hex. rewrite Hex. repeat split.
Qed.

Lemma in_memory_reads_keep_store_witness :
  let s := run [AddUserPointsUsed "bob" 5] InMemoryStorage.init in
  returned (InMemoryStorage.get_user_points_used "dave") s = Raise (KeyError "dave") ∧
  returned (InMemoryStorage.user_exists "dave")
    (final (InMemoryStorage.get_user_points_used "dave") s) = Ok false.
Proof.
  intros s.
  apply (proj2 (in_memory_reads_keep_store s "dave")).
  vm_compute. reflexivity.
Defined.

(** * Further properties of RedisStorage *)

Section RedisMore.
Import RedisStorage.
Implicit Types (db : gmap string rvalue) (u f : string) (n : Z) (k : counter).

(** A write, in full: it is made when the amount and the new value fit
    in 64 bits and the key holds no set, and refused otherwise. *)
Lemma incr_points_run db f u n :
  incr_points f u n db =
    match hash_of db u with
    | Some h =>
        if int64 n && int64 (default 0 (h !! f) + n)
        then (Ok (), <[u := RHash (<[f := default 0 (h !! f) + n]> h)]> db)
        else (Raise ResponseError, db)
    | None => (Raise ResponseError, db)
    end.
Proof.
  unfold incr_points, hincrby, hash_of. unfold_py.
  destruct (int64 n); cbn; [|by destruct (db !! u) as [[]|]].
  destruct (db !! u) as [[h|m]|]; cbn; [|done|]; by destruct (int64 _).
Qed.

Lemma add_method_redis k u n :
  add_method k u n = incr_points (field_name k) u n.
Proof. by destruct k. Qed.

Lemma get_method_redis k u :
  get_method k u = read_points (field_name k) u.
Proof. by destruct k. Qed.

Lemma read_or_zero_redis db f u :
  hash_of db u = None ∧ read_or_zero (returned (read_points f u) db) = 0 ∨
  ∃ h, hash_of db u = Some h ∧
       read_or_zero (returned (read_points f u) db) = default 0 (h !! f).
Proof.
  unfold returned, hash_of. rewrite read_points_spec. cbn.
  destruct (db !! u) as [[h|m]|]; [right; exists h|by left|right; exists ∅].
  - by destruct (h !! f).
  - by rewrite lookup_empty.
Qed.

Lemma hash_of_Some db u h :
  hash_of db u = Some h ↔
  db !! u = Some (RHash h) ∨ db !! u = None ∧ h = ∅.
Proof.
  unfold hash_of. destruct (db !! u) as [[h'|m]|]; split.
  - intros [= ->]. by left.
  - by intros [[= ->]|[[=] _]].
  - done.
  - by intros [[=]|[[=] _]].
  - intros [= <-]. by right.
  - by intros [[=]|[_ ->]].
Qed.

Lemma hash_of_is_Some db u :
  is_Some (hash_of db u) ↔ ∀ m, db !! u ≠ Some (RSet m).
Proof.
  unfold hash_of. destruct (db !! u) as [[h|m]|]; split; try done; eauto.
  intros H. by destruct (H m).
Qed.

End RedisMore.


(** ** Writing and reading a counter in Redis *)

(** X1: when an [add] method of [RedisStorage] returns, the [get] method
    of the same counter returns what it said before (0 if it raised)
    plus the amount, and [user_exists] is true. *)
Theorem redis_add_then_get (db : gmap string RedisStorage.rvalue)
    (k : counter) (user_id : string) (num : Z) :
  returned (add_method k user_id num) db = Ok () →
  let db' := final (add_method k user_id num) db in
  returned (get_method k user_id) db'
    = Ok (read_or_zero (returned (get_method k user_id) db) + num) ∧
  returned (RedisStorage.user_exists user_id) db' = Ok true.
Proof.
  rewrite add_method_redis, get_method_redis. unfold returned at 1, final.
  rewrite incr_points_run.
  destruct (read_or_zero_redis db (field_name k) user_id)
    as [[-> _]|(h & -> & ->)]; [done|].
  destruct (_ && _); [intros _; cbn|done]. split.
  - apply read_points_Ok. eexists. rewrite lookup_insert_eq. split; [done|].
    by rewrite lookup_insert_eq.
  - unfold returned, RedisStorage.user_exists, RedisStorage.redis_exists. cbn.
    f_equal. apply bool_decide_eq_true. by rewrite lookup_insert_eq.
Qed.

Lemma redis_add_then_get_witness :
  let db := run [AddUserPointsUsed "bob" 5] RedisStorage.init in
  returned (RedisStorage.get_user_points_used "bob")
    (final (RedisStorage.add_user_points_used "bob" 3) db) = Ok 8 ∧
  returned (RedisStorage.user_exists "bob")
    (final (RedisStorage.add_user_points_used "bob" 3) db) = Ok true.
Proof.
  intros db. apply (redis_add_then_get db Used "bob" 3).
  vm_compute. reflexivity.
Defined.





(** X4: the four reading methods of [RedisStorage] leave the keyspace as
    it was, whether they return or raise. *)
Theorem redis_reads_keep_keyspace (db : gmap string RedisStorage.rvalue)
    (user_id : string) :
  final (RedisStorage.user_exists user_id) db = db ∧
  final (RedisStorage.get_user_points_used user_id) db = db ∧
  final (RedisStorage.get_user_points_received user_id) db = db ∧
  final RedisStorage.get_users_and_scores db = db.
Proof.
  rewrite redis_get_user_points_used_eq, redis_get_user_points_received_eq.
  rewrite !read_points_final, redis_get_users_and_scores_final. done.
Qed.


(** ** [_create_user_entry] *)

Section RedisCreate.
Import RedisStorage.
Implicit Types (db : gmap string rvalue) (u f : string) (n : Z) (k : counter).

(** [_create_user_entry], in full: [hmset] sets both fields to 0, then
    [sadd] adds the user to the set; if [sadd] is refused the hash stays
    written. *)
Lemma create_user_entry_run db u :
  _create_user_entry u db =
    match hash_of db u with
    | None => (Raise ResponseError, db)
    | Some h =>
        let db1 := <[u := RHash (<[POINTS_RECEIVED := 0]> (<[POINTS_USED := 0]> h))]> db in
        match known_users db1 with
        | None => (Raise ResponseError, db1)
        | Some m => (Ok (), <[USERS_LIST_KEY := RSet ({[u]} ∪ m)]> db1)
        end
    end.
Proof.
  unfold _create_user_entry, hmset, sadd, hash_of, known_users. unfold_py.
  destruct (db !! u) as [[h|m]|]; cbn; [|done|].
  - by destruct (_ !! USERS_LIST_KEY) as [[h'|m']|].
  - by destruct (_ !! USERS_LIST_KEY) as [[h'|m']|].
Qed.

Lemma known_users_insert_ne db u v :
  u ≠ USERS_LIST_KEY → known_users (<[u := v]> db) = known_users db.
Proof. intros Hne. unfold known_users. by rewrite lookup_insert_ne. Qed.

Lemma known_users_insert_hash db h :
  known_users (<[USERS_LIST_KEY := RHash h]> db) = None.
Proof. unfold known_users. by rewrite lookup_insert_eq. Qed.

Lemma known_users_insert_set db m :
  known_users (<[USERS_LIST_KEY := RSet m]> db) = Some m.
Proof. unfold known_users. by rewrite lookup_insert_eq. Qed.

Lemma hash_of_insert_hash db u h : hash_of (<[u := RHash h]> db) u = Some h.
Proof. unfold hash_of. by rewrite lookup_insert_eq. Qed.

Lemma hash_of_insert_ne db u u' v :
  u ≠ u' → hash_of (<[u' := v]> db) u = hash_of db u.
Proof. intros Hne. unfold hash_of. by rewrite lookup_insert_ne. Qed.

Lemma zero_fields_twice (h : gmap string Z) :
  <[POINTS_RECEIVED := 0]> (<[POINTS_USED := 0]>
    (<[POINTS_RECEIVED := 0]> (<[POINTS_USED := 0]> h)))
  = <[POINTS_RECEIVED := 0]> (<[POINTS_USED := 0]> h).
Proof.
  apply map_eq. intros i. rewrite !lookup_insert. by repeat case_decide.
Qed.

End RedisCreate.


(** X5: [_create_user_entry(user_id)], for a user whose id is not the
    key of the set of known users, on a keyspace where the user's key
    holds no set and the key of the known users holds no hash: it
    returns, the user exists, both counters read 0 whatever they were
    before, the user has joined the known users, and no other key has
    changed. *)
Theorem redis_create_user_entry_spec (db : gmap string RedisStorage.rvalue)
    (user_id : string) (m0 : gset string) :
  user_id ≠ RedisStorage.USERS_LIST_KEY →
  (∀ m, db !! user_id ≠ Some (RedisStorage.RSet m)) →
  known_users db = Some m0 →
  let db' := final (RedisStorage._create_user_entry user_id) db in
  returned (RedisStorage._create_user_entry user_id) db = Ok () ∧
  returned (RedisStorage.user_exists user_id) db' = Ok true ∧
  returned (RedisStorage.get_user_points_used user_id) db' = Ok 0 ∧
  returned (RedisStorage.get_user_points_received user_id) db' = Ok 0 ∧
  known_users db' = Some ({[user_id]} ∪ m0) ∧
  ∀ key, key ≠ user_id → key ≠ RedisStorage.USERS_LIST_KEY →
         db' !! key = db !! key.
Proof.
  intros Hne [h Hh]%hash_of_is_Some Hm0. unfold returned at 1, final.
  rewrite create_user_entry_run, Hh. cbn zeta.
  rewrite known_users_insert_ne, Hm0 by done. cbn [fst snd].
  assert (USERS_LIST_KEY_ne : RedisStorage.USERS_LIST_KEY ≠ user_id) by done.
  split; [done|]. split; [|split; [|split; [|split]]].
  - unfold returned, RedisStorage.user_exists, RedisStorage.redis_exists. cbn.
    f_equal. apply bool_decide_eq_true.
    by rewrite lookup_insert_ne, lookup_insert_eq.
  - rewrite redis_get_user_points_used_eq. apply read_points_Ok. eexists.
    rewrite lookup_insert_ne, lookup_insert_eq by done. split; [done|].
    by rewrite lookup_insert_ne, lookup_insert_eq.
  - rewrite redis_get_user_points_received_eq. apply read_points_Ok. eexists.
    rewrite lookup_insert_ne, lookup_insert_eq by done. split; [done|].
    by rewrite lookup_insert_eq.
  - apply known_users_insert_set.
  - intros key Hu Hk. by rewrite !lookup_insert_ne.
Qed.

Lemma redis_create_user_entry_spec_witness :
  let db := run [AddUserPointsUsed "bob" 5] RedisStorage.init in
  let db' := final (RedisStorage._create_user_entry "bob") db in
  returned (RedisStorage._create_user_entry "bob") db = Ok () ∧
  returned (RedisStorage.user_exists "bob") db' = Ok true ∧
  returned (RedisStorage.get_user_points_used "bob") db' = Ok 0 ∧
  returned (RedisStorage.get_user_points_received "bob") db' = Ok 0 ∧
  known_users db' = Some ({["bob"]} ∪ ∅) ∧
  ∀ key, key ≠ "bob" → key ≠ RedisStorage.USERS_LIST_KEY →
         db' !! key = db !! key.
Proof.
  intros db.
  apply (redis_create_user_entry_spec db "bob" ∅).
  - discriminate.
  - intros m. vm_compute. discriminate.
  - reflexivity.
Defined.

(** X6: [_create_user_entry] is idempotent: a second call for the same
    user returns or raises as the first did and leaves the keyspace the
    first call made, on every keyspace. *)
Theorem redis_create_user_entry_idempotent (db : gmap string RedisStorage.rvalue)
    (user_id : string) :
  let db' := final (RedisStorage._create_user_entry user_id) db in
  returned (RedisStorage._create_user_entry user_id) db'
    = returned (RedisStorage._create_user_entry user_id) db ∧
  final (RedisStorage._create_user_entry user_id) db' = db'.
Proof.
  unfold returned, final. rewrite (create_user_entry_run db).
  destruct (hash_of db user_id) as [h|] eqn:Eh; cbn zeta.
  2: { cbn. by rewrite create_user_entry_run, Eh. }
  set (h0 := <[RedisStorage.POINTS_RECEIVED := 0]>
               (<[RedisStorage.POINTS_USED := 0]> h)).
  set (db1 := <[user_id := RedisStorage.RHash h0]> db).
  destruct (known_users db1) as [m|] eqn:Em; cbn [fst snd].
  - assert (user_id ≠ RedisStorage.USERS_LIST_KEY) as Hne.
    { intros ->. subst db1. by rewrite known_users_insert_hash in Em. }
    rewrite create_user_entry_run.
    rewrite hash_of_insert_ne by done. subst db1.
    rewrite hash_of_insert_hash. cbn zeta. subst h0.
    rewrite zero_fields_twice.
    rewrite known_users_insert_ne, known_users_insert_set by done.
    cbn [fst snd].
    assert ({[user_id]} ∪ ({[user_id]} ∪ m) = {[user_id]} ∪ m) as ->
      by (by rewrite (assoc_L (∪)), union_idemp_L).
    rewrite (insert_id (<[RedisStorage.USERS_LIST_KEY := _]> _) user_id)
      by (by rewrite lookup_insert_ne, lookup_insert_eq).
    by rewrite insert_insert_eq.
  - rewrite create_user_entry_run. subst db1.
    rewrite hash_of_insert_hash. cbn zeta. subst h0.
    rewrite zero_fields_twice, insert_insert_eq. by rewrite Em.
Qed.


(** ** The set of known users *)

Section RedisRegistered.
Import RedisStorage.
Implicit Types (db : gmap string rvalue) (u f : string) (n : Z) (k : counter).

Lemma comprehension_Forall {St A B} (f : A → Py St B) (g : A → B) (l : list A) s :
  Forall (λ x, f x s = (Ok (g x), s)) l →
  comprehension f l s = (Ok (g <$> l), s).
Proof.
  induction 1 as [|x l Hx _ IH]; [done|].
  cbn [comprehension]. unfold mbind, py_mbind, py_bind at 1. rewrite Hx.
  unfold py_bind. by rewrite IH.
Qed.

Lemma fst_pair_fmap {A B} (g : A → B) (l : list A) :
  ((λ x, (x, g x)) <$> l).*1 = l.
Proof. induction l; cbn; congruence. Qed.

Lemma redis_enumerate_no_set db :
  known_users db = None →
  returned RedisStorage.get_users_and_scores db = Raise ResponseError.
Proof.
  unfold known_users, returned, RedisStorage.get_users_and_scores, smembers.
  unfold_py. by destruct (db !! USERS_LIST_KEY) as [[h|m]|].
Qed.

Lemma redis_enumerate_set db m :
  known_users db = Some m →
  (∀ u, u ∈ m → ∃ z, returned (RedisStorage.get_user_points_received u) db = Ok z) →
  returned RedisStorage.get_users_and_scores db =
    Ok ((λ u, (u, read_or_zero
                    (returned (RedisStorage.get_user_points_received u) db)))
          <$> elements m).
Proof.
  intros Hm Hall.
  assert (∀ l, Forall (λ u, u ∈ m) l →
    comprehension
      (λ user, x ← RedisStorage.get_user_points_received user; mret (user, x))
      l db
    = (Ok ((λ u, (u, read_or_zero
                       (returned (RedisStorage.get_user_points_received u) db)))
             <$> l), db)) as Hl.
  { intros l Hin. apply comprehension_Forall.
    eapply Forall_impl; [exact Hin|]. intros u [z Hz]%Hall. cbn beta.
    pose proof (read_points_final db POINTS_RECEIVED u) as Hfin.
    rewrite <- redis_get_user_points_received_eq in Hfin.
    unfold returned, final in *. unfold_py.
    destruct (RedisStorage.get_user_points_received u db) as [r db'].
    cbn in *. by subst. }
  unfold returned, RedisStorage.get_users_and_scores, smembers.
  unfold mbind at 1. unfold py_mbind at 1. unfold py_bind at 1.
  unfold known_users in Hm.
  specialize (Hl (elements m)). rewrite Forall_forall in Hl.
  destruct (db !! USERS_LIST_KEY) as [[h|m']|]; [done| |];
    injection Hm as <-; by rewrite Hl by (intros u; apply elem_of_elements).
Qed.

Lemma registered_reads db m u :
  known_users db = Some m → registered db → u ∈ m →
  ∃ z, returned (RedisStorage.get_user_points_received u) db = Ok z.
Proof.
  intros Hm (m' & Hm' & Hall) Hu. assert (m' = m) as -> by congruence.
  destruct (Hall u Hu) as (h & z & Hh & Hz). exists z.
  rewrite redis_get_user_points_received_eq. apply read_points_Ok. eauto.
Qed.

End RedisRegistered.

Lemma registered_enumeration (db : gmap string RedisStorage.rvalue) :
  registered db →
  ∃ m l, known_users db = Some m ∧
    returned RedisStorage.get_users_and_scores db = Ok l ∧
    NoDup l.*1 ∧
    (∀ u, u ∈ l.*1 ↔ u ∈ m) ∧
    (∀ u z, (u, z) ∈ l →
       returned (RedisStorage.get_user_points_received u) db = Ok z).
Proof.
  intros Hreg. pose proof Hreg as (m & Hm & Hall).
  exists m. eexists. split; [done|]. split.
  { apply redis_enumerate_set; [done|]. eauto using registered_reads. }
  rewrite fst_pair_fmap.
  split; [apply NoDup_elements|]. split; [intros u; apply elem_of_elements|].
  intros u z (u' & [= <- ->] & Hu%elem_of_elements)%list_elem_of_fmap.
  destruct (registered_reads db m u Hm Hreg Hu) as [z Hz]. by rewrite Hz.
Qed.

(** X7: when every known user has a hash with a received-points field,
    [get_users_and_scores] of [RedisStorage] returns a list that holds
    each known user exactly once and nobody else, each with the score
    that [get_user_points_received] returns. *)
Theorem redis_registered_enumeration (db : gmap string RedisStorage.rvalue) :
  registered db →
  ∃ m l, known_users db = Some m ∧
    returned RedisStorage.get_users_and_scores db = Ok l ∧
    NoDup l.*1 ∧
    (∀ u, u ∈ l.*1 ↔ u ∈ m) ∧
    (∀ u z, (u, z) ∈ l →
       returned (RedisStorage.get_user_points_received u) db = Ok z).
Proof. apply registered_enumeration. Qed.

Lemma redis_registered_enumeration_witness :
  let db := final (RedisStorage._create_user_entry "alice") RedisStorage.init in
  ∃ m l, known_users db = Some m ∧
    returned RedisStorage.get_users_and_scores db = Ok l ∧
    NoDup l.*1 ∧
    (∀ u, u ∈ l.*1 ↔ u ∈ m) ∧
    (∀ u z, (u, z) ∈ l →
       returned (RedisStorage.get_user_points_received u) db = Ok z).
Proof.
  intros db. apply (redis_registered_enumeration db).
  exists {["alice"]}. split; [vm_compute; reflexivity|].
  intros u ->%elem_of_singleton. eexists _, 0. split; vm_compute; reflexivity.
Defined.


Section RedisKept.
Import RedisStorage.
Implicit Types (db : gmap string rvalue) (u f : string) (n : Z) (k : counter).

Lemma redis_kept_init : redis_kept RedisStorage.init ∅.
Proof.
  repeat split.
  - intros key _. unfold hash_of, RedisStorage.init. rewrite lookup_empty. eauto.
  - intros u Hu. by apply not_elem_of_empty in Hu.
Qed.

Lemma redis_kept_registered db m : redis_kept db m → registered db.
Proof. intros (_ & Hm & Hall). exists m. eauto. Qed.

Lemma redis_kept_member_ne db m u :
  redis_kept db m → u ∈ m → u ≠ USERS_LIST_KEY.
Proof.
  intros (_ & Hm & Hall) (h & z & Hh & _)%Hall ->.
  unfold known_users in Hm. by rewrite Hh in Hm.
Qed.

Lemma redis_kept_add db m k u n :
  redis_kept db m → u ≠ USERS_LIST_KEY →
  redis_kept (final (incr_points (field_name k) u n) db) m.
Proof.
  intros Hkept Hne. pose proof Hkept as (Hkeys & Hm & Hall).
  unfold final. rewrite incr_points_run.
  destruct (hash_of db u) as [h|] eqn:Eh; [|done].
  destruct (_ && _); [cbn|done]. repeat split.
  - intros key Hkey. destruct (decide (key = u)) as [->|?].
    + rewrite hash_of_insert_hash. eauto.
    + rewrite hash_of_insert_ne by done. auto.
  - by rewrite known_users_insert_ne.
  - intros u' Hu'. destruct (Hall u' Hu') as (h' & z & Hh' & Hz).
    destruct (decide (u' = u)) as [->|?].
    + rewrite lookup_insert_eq.
      apply hash_of_Some in Eh as [Eh|[Eh _]]; [|congruence].
      assert (h' = h) as -> by congruence.
      destruct (decide (field_name k = POINTS_RECEIVED)) as [->|?].
      * eexists _, _. split; [done|]. by rewrite lookup_insert_eq.
      * eexists _, z. split; [done|]. by rewrite lookup_insert_ne.
    + rewrite lookup_insert_ne by done. eauto.
Qed.

Lemma redis_kept_create db m u :
  redis_kept db m → u ≠ USERS_LIST_KEY →
  redis_kept (final (_create_user_entry u) db) ({[u]} ∪ m).
Proof.
  intros Hkept Hne. pose proof Hkept as (Hkeys & Hm & Hall).
  unfold final. rewrite create_user_entry_run.
  destruct (Hkeys u Hne) as [h ->]. cbn zeta.
  rewrite known_users_insert_ne, Hm by done. cbn [snd]. repeat split.
  - intros key Hkey. rewrite hash_of_insert_ne by done.
    destruct (decide (key = u)) as [->|?].
    + rewrite hash_of_insert_hash. eauto.
    + rewrite hash_of_insert_ne by done. auto.
  - apply known_users_insert_set.
  - intros u' [->%elem_of_singleton|Hu']%elem_of_union.
    + rewrite lookup_insert_ne, lookup_insert_eq by done.
      eexists _, 0. split; [done|]. by rewrite lookup_insert_eq.
    + pose proof (redis_kept_member_ne _ _ _ Hkept Hu') as Hu'ne.
      rewrite lookup_insert_ne by done.
      destruct (decide (u' = u)) as [->|?].
      * rewrite lookup_insert_eq. eexists _, 0. split; [done|].
        by rewrite lookup_insert_eq.
      * rewrite lookup_insert_ne by done. auto.
Qed.

Lemma redis_kept_exec db m (rc : redis_call) :
  redis_kept db m → redis_user_of rc ≠ Some USERS_LIST_KEY →
  redis_kept (redis_exec rc db)
    (match rc with CreateUserEntry u => {[u]} ∪ m | Public _ => m end).
Proof.
  intros Hkept Hne. destruct rc as [c|u]; cbn [redis_exec].
  - destruct (call_cases c) as [(k & u & n & ->)|Hread];
      [|by rewrite redis_exec_read].
    rewrite redis_exec_add. apply redis_kept_add; [done|].
    intros ->. apply Hne. by destruct k.
  - apply redis_kept_create; [done|]. intros ->. by apply Hne.
Qed.

Lemma avoids_users_list_cons (rc : redis_call) (rcs : list redis_call) :
  avoids_users_list (rc :: rcs) = true ↔
  redis_user_of rc ≠ Some USERS_LIST_KEY ∧ avoids_users_list rcs = true.
Proof.
  unfold avoids_users_list. cbn [forallb].
  by rewrite andb_true_iff, bool_decide_eq_true.
Qed.

Lemma redis_kept_run (rcs : list redis_call) db m :
  redis_kept db m → avoids_users_list rcs = true →
  ∃ m', redis_kept (redis_run rcs db) m' ∧
        ∀ u, u ∈ m' ↔ u ∈ created rcs ∨ u ∈ m.
Proof.
  revert db m. induction rcs as [|rc rcs IH]; intros db m Hkept Hav.
  - exists m. split; [done|]. intros u. split; [by right|].
    by intros [?%elem_of_nil|?].
  - apply avoids_users_list_cons in Hav as [Hrc Hav].
    destruct (IH _ _ (redis_kept_exec _ _ _ Hkept Hrc) Hav) as (m' & Hm' & Hiff).
    exists m'. split; [done|]. intros u. rewrite Hiff.
    destruct rc as [c|u']; cbn [created omap list_omap]; [done|].
    rewrite elem_of_union, elem_of_singleton, elem_of_cons. tauto.
Qed.

Lemma redis_enumerate_no_set_create db u :
  known_users db = None →
  returned (_create_user_entry u) db = Raise ResponseError.
Proof.
  intros Hm. unfold returned. rewrite create_user_entry_run.
  destruct (hash_of db u) as [h|]; [cbn zeta|done].
  destruct (decide (u = USERS_LIST_KEY)) as [->|Hne].
  - by rewrite known_users_insert_hash.
  - by rewrite known_users_insert_ne, Hm.
Qed.

End RedisKept.

(** X8: from the empty keyspace, after any calls of the six methods and
    of [_create_user_entry], none of them for a user whose id is the key
    of the set of known users, [get_users_and_scores] returns a list
    that holds exactly the users [_create_user_entry] was called for,
    each once, each with the score [get_user_points_received]
    returns. *)
Theorem redis_created_users_enumerated (rcs : list redis_call) :
  avoids_users_list rcs = true →
  let db := redis_run rcs RedisStorage.init in
  ∃ l, returned RedisStorage.get_users_and_scores db = Ok l ∧
    NoDup l.*1 ∧
    (∀ u, u ∈ l.*1 ↔ u ∈ created rcs) ∧
    (∀ u z, (u, z) ∈ l →
       returned (RedisStorage.get_user_points_received u) db = Ok z).
Proof.
  intros Hav db.
  destruct (redis_kept_run rcs _ _ redis_kept_init Hav) as (m & Hkept & Hiff).
  fold db in Hkept.
  destruct (registered_enumeration db (redis_kept_registered _ _ Hkept))
    as (m' & l & Hm' & Hl & Hnd & Hin & Hscore).
  assert (m' = m) as -> by (destruct Hkept as (_ & ? & _); congruence).
  exists l. repeat split; try done.
  - intros Hu%Hin%Hiff. destruct Hu as [?|?%not_elem_of_empty]; done.
  - intros Hu. apply Hin, Hiff. by left.
Qed.

Lemma redis_created_users_enumerated_witness :
  let db := redis_run [CreateUserEntry "alice";
                       Public (AddUserPointsReceived "alice" 10);
                       Public (AddUserPointsUsed "bob" 5)] RedisStorage.init in
  ∃ l, returned RedisStorage.get_users_and_scores db = Ok l ∧
    NoDup l.*1 ∧
    (∀ u, u ∈ l.*1 ↔ u ∈ ["alice"]) ∧
    (∀ u z, (u, z) ∈ l →
       returned (RedisStorage.get_user_points_received u) db = Ok z).
Proof.
  apply (redis_created_users_enumerated
           [CreateUserEntry "alice"; Public (AddUserPointsReceived "alice" 10);
            Public (AddUserPointsUsed "bob" 5)]).
  reflexivity.
Defined.

(** X9: a user whose id is the key of the set of known users cannot be
    stored.  [_create_user_entry] for that id raises [ResponseError] on
    every keyspace; and once an [add] method has returned for that id,
    [get_users_and_scores] raises [ResponseError] and
    [_create_user_entry] raises it for every user. *)
Theorem redis_users_list_as_user (db : gmap string RedisStorage.rvalue) :
  returned (RedisStorage._create_user_entry RedisStorage.USERS_LIST_KEY) db
    = Raise ResponseError ∧
  ∀ k num,
    returned (add_method k RedisStorage.USERS_LIST_KEY num) db = Ok () →
    let db' := final (add_method k RedisStorage.USERS_LIST_KEY num) db in
    returned RedisStorage.get_users_and_scores db' = Raise ResponseError ∧
    ∀ user_id,
      returned (RedisStorage._create_user_entry user_id) db' = Raise ResponseError.
Proof.
  split.
  - unfold returned. rewrite create_user_entry_run.
    destruct (hash_of db _); [cbn zeta|done].
    by rewrite known_users_insert_hash.
  - intros k num. rewrite add_method_redis. unfold returned at 1, final.
    rewrite incr_points_run.
    destruct (hash_of db _) as [h|]; [|done].
    destruct (_ && _); [intros _; cbn|done].
    split; [|intros user_id].
    + apply redis_enumerate_no_set, known_users_insert_hash.
    + apply redis_enumerate_no_set_create, known_users_insert_hash.
Qed.

Lemma redis_users_list_as_user_witness :
  let db' := final (RedisStorage.add_user_points_used "USERS_LIST" 1)
               RedisStorage.init in
  returned RedisStorage.get_users_and_scores db' = Raise ResponseError ∧
  ∀ user_id,
    returned (RedisStorage._create_user_entry user_id) db' = Raise ResponseError.
Proof.
  apply (proj2 (redis_users_list_as_user RedisStorage.init) Used 1).
  vm_compute. reflexivity.
Defined.


(** ** Sums in Redis *)

Section RedisSums.
Import RedisStorage.
Implicit Types (db : gmap string rvalue) (u f : string) (n : Z) (k : counter).

Lemma int64_range (z : Z) : 0 ≤ z < 2 ^ 63 → int64 z = true.
Proof. intros ?. apply bool_decide_eq_true. lia. Qed.

Lemma total_nonneg (ns : list Z) : Forall (λ n, 0 ≤ n) ns → 0 ≤ total ns.
Proof.
  induction 1 as [|n ns Hn _ IH]; unfold total in *; cbn [foldr] in *; lia.
Qed.

Lemma redis_adds_field k u (ns : list Z) db h :
  hash_of db u = Some h →
  0 ≤ default 0 (h !! field_name k) →
  Forall (λ n, 0 ≤ n) ns → ns ≠ [] →
  default 0 (h !! field_name k) + total ns < 2 ^ 63 →
  returned (read_points (field_name k) u) (run (add k u <$> ns) db)
    = Ok (default 0 (h !! field_name k) + total ns).
Proof.
  intros Hh Ha Hns. revert db h Hh Ha.
  induction Hns as [|n ns Hn Hns IH]; intros db h Hh Ha Hne Hlt; [done|].
  pose proof (total_nonneg ns Hns) as Htot. cbn [total foldr] in Hlt.
  fold (total ns) in Hlt.
  rewrite fmap_cons, run_cons, redis_exec_add. unfold final.
  rewrite incr_points_run, Hh.
  rewrite !int64_range by lia. cbn [andb snd].
  destruct ns as [|n' ns'].
  - cbn. apply read_points_Ok. eexists. rewrite lookup_insert_eq.
    split; [done|]. rewrite lookup_insert_eq. f_equal. lia.
  - erewrite IH; [| apply hash_of_insert_hash | | done |];
      rewrite ?lookup_insert_eq; cbn [default from_option id total foldr] in *.
    + f_equal. lia.
    + lia.
    + lia.
Qed.

End RedisSums.

(** X10: through the six methods alone, [RedisStorage] never enumerates
    anybody: from the empty keyspace, after any calls,
    [get_users_and_scores] returns the empty list, or raises
    [ResponseError] when a user named as the set's key was written. *)
Theorem redis_public_calls_enumerate_nobody (cs : list call) :
  let db := run cs RedisStorage.init in
  returned RedisStorage.get_users_and_scores db = Ok [] ∨
  returned RedisStorage.get_users_and_scores db = Raise ResponseError.
Proof. apply redis_never_enumerates. Qed.

(** X11: in [RedisStorage], for a user that is not a key yet, a
    non-empty sequence of [add] calls on one counter with amounts that
    are not negative and whose sum is below 2^63 adds up: the [get]
    method returns the sum, and [user_exists] is true. *)
Theorem redis_counter_accumulates (db : gmap string RedisStorage.rvalue)
    (k : counter) (user_id : string) (ns : list Z) :
  db !! user_id = None → ns ≠ [] →
  Forall (λ n, 0 ≤ n) ns → total ns < 2 ^ 63 →
  let db' := run (add k user_id <$> ns) db in
  returned (get_method k user_id) db' = Ok (total ns) ∧
  returned (RedisStorage.user_exists user_id) db' = Ok true.
Proof.
  intros Hu Hne Hns Hlt db'.
  assert (returned (get_method k user_id) db' = Ok (total ns)) as Hget.
  { rewrite get_method_redis. subst db'.
    erewrite (redis_adds_field k user_id ns db ∅);
      rewrite ?lookup_empty; cbn; try done.
    unfold hash_of. by rewrite Hu. }
  split; [done|]. rewrite get_method_redis in Hget.
  apply read_points_Ok in Hget as (h & Hh & _).
  unfold returned, RedisStorage.user_exists, RedisStorage.redis_exists. cbn.
  f_equal. apply bool_decide_eq_true. by rewrite Hh.
Qed.

Lemma redis_counter_accumulates_witness :
  let db' := run (add Received "bob" <$> [3; 4]) RedisStorage.init in
  returned (RedisStorage.get_user_points_received "bob") db' = Ok 7 ∧
  returned (RedisStorage.user_exists "bob") db' = Ok true.
Proof.
  apply (redis_counter_accumulates RedisStorage.init Received "bob" [3; 4]).
  - reflexivity.
  - discriminate.
  - repeat constructor; lia.
  - reflexivity.
Defined.


(** * Further properties of InMemoryStorage *)

Section InMemoryMore.
Import InMemoryStorage.
Implicit Types (s : store) (u f : string) (n : Z) (r : ref) (k : counter).

Lemma pd_lookup_insert {V} (k k' : string) (v : V) (d : pydict V) :
  pd_lookup k (pd_insert k' v d)
    = if decide (k = k') then Some v else pd_lookup k d.
Proof.
  induction d as [|[k'' v''] d IH]; cbn.
  - by destruct (decide (k = k')).
  - destruct (decide (k' = k'')) as [->|Hne]; cbn.
    + by destruct (decide (k = k'')).
    + destruct (decide (k = k'')) as [->|?]; [by rewrite decide_False|done].
Qed.

Lemma pd_lookup_elem {V} (k : string) (v : V) (d : pydict V) :
  NoDup (pd_keys d) → (k, v) ∈ d → pd_lookup k d = Some v.
Proof.
  unfold pd_keys. induction d as [|[k' v'] d IH]; cbn.
  - by intros _ ?%elem_of_nil.
  - rewrite NoDup_cons. intros [Hk Hd] [[= -> ->]|Hin]%elem_of_cons.
    + by rewrite decide_True.
    + rewrite decide_False; [by apply IH|].
      intros ->. apply Hk. apply list_elem_of_fmap. by exists (k', v).
Qed.

Lemma pd_contains_elem {V} (k : string) (d : pydict V) :
  pd_contains k d = true ↔ k ∈ pd_keys d.
Proof.
  destruct (pd_contains k d) eqn:E.
  - split; [intros _|done]. destruct (decide (k ∈ pd_keys d)) as [|Hn]; [done|].
    apply pd_lookup_None, pd_contains_false in Hn. congruence.
  - split; [done|]. intros Hin. apply pd_contains_false, pd_lookup_None in E.
    done.
Qed.

Lemma pd_contains_false_iff_not {V} (k : string) (d : pydict V) :
  pd_contains k d = true ↔ pd_contains k d ≠ false.
Proof. by destruct (pd_contains k d). Qed.

Lemma add_method_in_memory k u n :
  add_method k u n = add_points (field_name k) u n.
Proof. by destruct k. Qed.

Lemma get_method_in_memory k u :
  get_method k u = get_points (field_name k) u.
Proof. by destruct k. Qed.

(** The two [add] methods of [InMemoryStorage] never raise. *)
Lemma add_points_returns s f u n : returned (add_points f u n) s = Ok ().
Proof.
  unfold returned, add_points, new_dict, data_setdefault, dict_get,
    dict_setitem. unfold_py. cbn. by destruct (pd_lookup u (_data s)).
Qed.

(** A write adds at most one key to [_data] and removes none. *)
Lemma add_points_data s f u n :
  _data (final (add_points f u n) s)
    = match pd_lookup u (_data s) with
      | Some _ => _data s
      | None => pd_insert u (length (heap s)) (_data s)
      end.
Proof.
  unfold final, add_points, new_dict, data_setdefault, dict_get,
    dict_setitem. unfold_py. cbn. by destruct (pd_lookup u (_data s)).
Qed.

Lemma read_or_zero_in_memory s f u :
  read_or_zero (returned (get_points f u) s) = default 0 (field_of s u f).
Proof.
  unfold returned, field_of. rewrite get_points_spec. cbn.
  by destruct (record_of s u).
Qed.

Lemma add_points_field s f u n :
  well_formed s →
  field_of (final (add_points f u n) s) u f
    = Some (default 0 (field_of s u f) + n).
Proof.
  intros Hwf. unfold field_of at 1. rewrite add_points_record by done. cbn.
  by rewrite lookup_insert_eq.
Qed.

Lemma add_points_field_ne s f f' u n :
  well_formed s → f' ≠ f →
  field_of (final (add_points f u n) s) u f' = field_of s u f'.
Proof.
  intros Hwf Hne. unfold field_of. rewrite add_points_record by done. cbn.
  rewrite lookup_insert_ne by done.
  destruct (record_of s u); [done|]. apply lookup_empty.
Qed.

Lemma add_points_field_frame s f f' u u' n :
  well_formed s → u' ≠ u →
  field_of (final (add_points f u n) s) u' f' = field_of s u' f'.
Proof. intros Hwf Hne. unfold field_of. by rewrite add_points_frame. Qed.

Lemma in_memory_exists_final (c : call) s u :
  returned (InMemoryStorage.user_exists u) s = Ok true →
  returned (InMemoryStorage.user_exists u) (exec c s) = Ok true.
Proof.
  destruct (call_cases c) as [(k & u' & n & ->)|Hread];
    [|by rewrite in_memory_exec_read].
  rewrite exec_add. unfold returned, InMemoryStorage.user_exists, data_contains.
  cbn. intros [= Hin]. f_equal. rewrite add_points_data.
  apply pd_contains_false_iff_not in Hin.
  destruct (pd_lookup u' (_data s)); [by apply pd_contains_false_iff_not|].
  apply pd_contains_false_iff_not. rewrite pd_contains_false, pd_lookup_insert.
  case_decide; [done|]. by rewrite <- pd_contains_false.
Qed.

End InMemoryMore.


Lemma redis_exists_final (c : call) (db : gmap string RedisStorage.rvalue)
    (u : string) :
  returned (RedisStorage.user_exists u) db = Ok true →
  returned (RedisStorage.user_exists u) (exec c db) = Ok true.
Proof.
  destruct (call_cases c) as [(k & u' & n & ->)|Hread];
    [|by rewrite redis_exec_read].
  rewrite redis_exec_add.
  destruct (incr_points_final db (field_name k) u' n)
    as [->|(h & _ & ->)]; [done|].
  unfold returned, RedisStorage.user_exists, RedisStorage.redis_exists. cbn.
  intros [= Hin%bool_decide_eq_true]. f_equal. apply bool_decide_eq_true.
  destruct (decide (u = u')) as [->|?].
  - by rewrite lookup_insert_eq.
  - by rewrite lookup_insert_ne.
Qed.

(** X12: no method ever removes a user: in both backends, once
    [user_exists] is true for a user it is true after any calls, from
    any store. *)
Theorem users_never_disappear (cs : list call) (user_id : string) :
  (∀ s : InMemoryStorage.store,
     returned (InMemoryStorage.user_exists user_id) s = Ok true →
     returned (InMemoryStorage.user_exists user_id) (run cs s) = Ok true) ∧
  (∀ db : gmap string RedisStorage.rvalue,
     returned (RedisStorage.user_exists user_id) db = Ok true →
     returned (RedisStorage.user_exists user_id) (run cs db) = Ok true).
Proof.
  induction cs as [|c cs [IHm IHr]]; [done|]. split.
  - intros s Hs. rewrite run_cons. by apply IHm, in_memory_exists_final.
  - intros db Hdb. rewrite run_cons. by apply IHr, redis_exists_final.
Qed.

Lemma users_never_disappear_witness :
  returned (InMemoryStorage.user_exists "bob")
    (run [AddUserPointsUsed "alice" 1; GetUsersAndScores; AddUserPointsUsed "bob" (-5)]
       (run [AddUserPointsUsed "bob" 5] InMemoryStorage.init)) = Ok true.
Proof.
  apply (proj1 (users_never_disappear
    [AddUserPointsUsed "alice" 1; GetUsersAndScores; AddUserPointsUsed "bob" (-5)]
    "bob")).
  vm_compute. reflexivity.
Defined.

(** X13: in any [InMemoryStorage] that calls can lead to, an [add]
    method never raises, for any integer amount; afterwards the [get]
    method of the same counter returns what it said before (0 if it
    raised) plus the amount, and [user_exists] is true. *)
Theorem in_memory_add_then_get (cs : list call) (k : counter)
    (user_id : string) (num : Z) :
  let s := run cs InMemoryStorage.init in
  let s' := final (add_method k user_id num) s in
  returned (add_method k user_id num) s = Ok () ∧
  returned (get_method k user_id) s'
    = Ok (read_or_zero (returned (get_method k user_id) s) + num) ∧
  returned (InMemoryStorage.user_exists user_id) s' = Ok true.
Proof.
  intros s s'. subst s'.
  assert (well_formed s) as Hwf by (subst s; auto with storage).
  rewrite add_method_in_memory, get_method_in_memory.
  split; [apply add_points_returns|].
  pose proof (add_points_field s (field_name k) user_id num Hwf) as Hf.
  split.
  - rewrite read_or_zero_in_memory. by apply get_points_field.
  - unfold returned. rewrite user_exists_spec. cbn. f_equal.
    apply bool_decide_eq_true. unfold field_of in Hf.
    by destruct (record_of _ user_id).
Qed.

(** X14: the first write of one counter and the other counter.  For a
    user that does not exist yet, after an [add] on one counter the
    [get] method of the other counter returns 0 in [InMemoryStorage],
    and raises [TypeError] in [RedisStorage]. *)
Theorem first_add_other_counter (cs : list call)
    (db : gmap string RedisStorage.rvalue) (k : counter)
    (user_id : string) (num : Z) :
  let s := run cs InMemoryStorage.init in
  (returned (InMemoryStorage.user_exists user_id) s = Ok false →
   returned (get_method (other k) user_id) (final (add_method k user_id num) s)
     = Ok 0) ∧
  (returned (RedisStorage.user_exists user_id) db = Ok false →
   returned (add_method k user_id num) db = Ok () →
   returned (get_method (other k) user_id) (final (add_method k user_id num) db)
     = Raise TypeError).
Proof.
  intros s. split.
  - intros [= Hnew%pd_contains_false].
    rewrite add_method_in_memory, get_method_in_memory.
    unfold final. rewrite add_points_new by done. unfold returned.
    rewrite get_points_spec. unfold record_of. cbn.
    rewrite pd_lookup_snoc by done. cbn. unfold InMemoryStorage.deref. cbn.
    rewrite lookup_app_r, Nat.sub_diag by done. cbn.
    rewrite lookup_singleton_ne; [done|by destruct k].
  - intros [= Hnew%bool_decide_eq_false] Hadd.
    rewrite <- eq_None_not_Some in Hnew.
    rewrite add_method_redis, get_method_redis in *.
    unfold returned in Hadd. unfold final. rewrite incr_points_run in *.
    unfold hash_of in *. rewrite Hnew in *.
    destruct (_ && _); [cbn|done].
    unfold returned. rewrite read_points_spec. cbn. rewrite lookup_insert_eq.
    rewrite lookup_insert_ne by (by destruct k). by rewrite lookup_empty.
Qed.

Lemma first_add_other_counter_witness :
  returned (InMemoryStorage.get_user_points_received "carol")
    (final (InMemoryStorage.add_user_points_used "carol" 2) InMemoryStorage.init)
    = Ok 0 ∧
  returned (RedisStorage.get_user_points_received "carol")
    (final (RedisStorage.add_user_points_used "carol" 2) RedisStorage.init)
    = Raise TypeError.
Proof.
  split.
  - apply (proj1 (first_add_other_counter [] RedisStorage.init Used "carol" 2)).
    reflexivity.
  - apply (proj2 (first_add_other_counter [] RedisStorage.init Used "carol" 2));
      vm_compute; reflexivity.
Defined.


(** ** What [get_users_and_scores] of [InMemoryStorage] lists *)

Section InMemoryEnumeration.
Import InMemoryStorage.
Implicit Types (s : store) (u f : string) (n : Z) (r : ref) (k : counter).

Lemma enumeration_scores s (l : list (string * Z)) u z :
  well_formed s →
  returned InMemoryStorage.get_users_and_scores s = Ok l →
  (u, z) ∈ l → field_of s u POINTS_RECEIVED = Some z.
Proof.
  intros Hwf Hl Hin. unfold returned in Hl.
  rewrite get_users_and_scores_spec in Hl. cbn in Hl.
  destruct (mapM _ (_data s)) as [l'|] eqn:El; [|done]. injection Hl as ->.
  apply mapM_Some in El. apply list_elem_of_lookup in Hin as [i Hi].
  destruct (Forall2_lookup_r _ _ _ _ _ El Hi) as ([k r] & Hkr & Hg). cbn in Hg.
  destruct (deref s r !! POINTS_RECEIVED) as [z'|] eqn:Ez; [|done].
  injection Hg as -> ->.
  unfold field_of, record_of.
  rewrite (pd_lookup_elem u r); [by cbn|by destruct Hwf|].
  by apply list_elem_of_lookup_2 in Hkr.
Qed.

Lemma enumeration_keys s (l : list (string * Z)) :
  returned InMemoryStorage.get_users_and_scores s = Ok l →
  l.*1 = pd_keys (_data s).
Proof.
  intros Hl. unfold returned in Hl.
  rewrite get_users_and_scores_spec in Hl. cbn in Hl.
  destruct (mapM _ (_data s)) as [l'|] eqn:El; [|done]. injection Hl as ->.
  by apply (mapM_keys (λ kr, deref s kr.2 !! POINTS_RECEIVED)).
Qed.

End InMemoryEnumeration.

(** X15: in any [InMemoryStorage] that calls can lead to, when
    [get_users_and_scores] returns, its list holds exactly the users for
    which [user_exists] is true, each once, each with the score that
    [get_user_points_received] returns. *)
Theorem in_memory_enumeration_sound (cs : list call) (l : list (string * Z)) :
  let s := run cs InMemoryStorage.init in
  returned InMemoryStorage.get_users_and_scores s = Ok l →
  NoDup l.*1 ∧
  (∀ u, u ∈ l.*1 ↔ returned (InMemoryStorage.user_exists u) s = Ok true) ∧
  (∀ u z, (u, z) ∈ l →
     returned (InMemoryStorage.get_user_points_received u) s = Ok z).
Proof.
  intros s Hl.
  assert (well_formed s) as Hwf by (subst s; auto with storage).
  split; [by eapply in_memory_enumeration_nodup|]. split.
  - intros u. rewrite (enumeration_keys s l Hl), <- pd_contains_elem.
    unfold returned, InMemoryStorage.user_exists, InMemoryStorage.data_contains.
    cbn. split; [by intros ->|by intros [= ->]].
  - intros u z Hin. rewrite get_user_points_received_eq.
    apply get_points_field. by eapply enumeration_scores.
Qed.

Lemma in_memory_enumeration_sound_witness :
  let s := run [AddUserPointsReceived "alice" 10; AddUserPointsUsed "alice" 1]
             InMemoryStorage.init in
  NoDup [("alice", 10)].*1 ∧
  (∀ u, u ∈ [("alice", 10)].*1 ↔
        returned (InMemoryStorage.user_exists u) s = Ok true) ∧
  (∀ u z, (u, z) ∈ [("alice", 10)] →
     returned (InMemoryStorage.get_user_points_received u) s = Ok z).
Proof.
  apply (in_memory_enumeration_sound
           [AddUserPointsReceived "alice" 10; AddUserPointsUsed "alice" 1]
           [("alice", 10)]).
  vm_compute. reflexivity.
Defined.


(** ** The store and the calls that made it *)

Section InMemoryHistory.
Import InMemoryStorage.
Implicit Types (s : store) (u f : string) (n : Z) (r : ref) (k : counter).

Lemma field_name_inj k k' : field_name k = field_name k' → k = k'.
Proof. by destruct k, k'. Qed.

Lemma add_inj k k' u u' n n' :
  add k u n = add k' u' n' → k = k' ∧ u = u' ∧ n = n'.
Proof. destruct k, k'; cbn; intros [=]; by subst. Qed.

Lemma amount_add k u n : amount (add k u n) = Some n.
Proof. by destruct k. Qed.

Lemma gives_cons k u (c : call) (cs : list call) :
  gives k u (c :: cs) ↔ (∃ n, c = add k u n) ∨ gives k u cs.
Proof.
  unfold gives. split.
  - intros [n [Heq|Hin]%elem_of_cons]; eauto.
  - intros [[n ->]|[n Hin]]; exists n; [left|by right].
Qed.

Lemma gives_nil k u : ¬ gives k u [].
Proof. by intros [n ?%elem_of_nil]. Qed.

(** One call makes a field present exactly when it is the [add] of that
    user and counter; otherwise the field is as before. *)
Lemma exec_field_present (c : call) s k u :
  well_formed s →
  is_Some (field_of (exec c s) u (field_name k)) ↔
  is_Some (field_of s u (field_name k)) ∨ ∃ n, c = add k u n.
Proof.
  intros Hwf. destruct (call_cases c) as [(k' & u' & n & ->)|Hread].
  2: { rewrite in_memory_exec_read by done. split; [by left|].
       intros [?|[n ->]]; [done|]. by rewrite amount_add in Hread. }
  rewrite exec_add. destruct (decide (u = u')) as [<-|Hu].
  - destruct (decide (field_name k = field_name k')) as [<-%field_name_inj|Hk].
    + rewrite add_points_field by done. split; eauto.
    + rewrite add_points_field_ne by done.
      split; [by left|]. intros [?|[n' (-> & _)%add_inj]]; done.
  - rewrite add_points_field_frame by done.
    split; [by left|]. intros [?|[n' (_ & ? & _)%add_inj]]; done.
Qed.

Lemma run_field_present (cs : list call) s k u :
  well_formed s →
  is_Some (field_of (run cs s) u (field_name k)) ↔
  is_Some (field_of s u (field_name k)) ∨ gives k u cs.
Proof.
  revert s. induction cs as [|c cs IH]; intros s Hwf.
  - split; [by left|]. intros [?|?%gives_nil]; done.
  - rewrite run_cons, IH, exec_field_present, gives_cons by auto with storage.
    tauto.
Qed.

Lemma exec_record_present (c : call) s u :
  well_formed s →
  is_Some (record_of (exec c s) u) ↔
  is_Some (record_of s u) ∨ ∃ k n, c = add k u n.
Proof.
  intros Hwf. destruct (call_cases c) as [(k' & u' & n & ->)|Hread].
  2: { rewrite in_memory_exec_read by done. split; [by left|].
       intros [?|(k & n & ->)]; [done|]. by rewrite amount_add in Hread. }
  rewrite exec_add. destruct (decide (u = u')) as [<-|Hu].
  - rewrite add_points_record by done. split; eauto.
  - rewrite add_points_frame by done.
    split; [by left|]. intros [?|(k & n' & (_ & ? & _)%add_inj)]; done.
Qed.

Lemma run_record_present (cs : list call) s u :
  well_formed s →
  is_Some (record_of (run cs s) u) ↔
  is_Some (record_of s u) ∨ gives Used u cs ∨ gives Received u cs.
Proof.
  revert s. induction cs as [|c cs IH]; intros s Hwf.
  - split; [by left|]. intros [?|[?%gives_nil|?%gives_nil]]; done.
  - rewrite run_cons, IH, exec_record_present, !gives_cons by auto with storage.
    split.
    + intros [[?|(k & n & ->)]|[?|?]]; eauto.
      destruct k; eauto 6.
    + intros [?|[[[n ->]|?]|[[n ->]|?]]]; eauto 6.
Qed.

Lemma reached_field_present (cs : list call) k u :
  is_Some (field_of (run cs init) u (field_name k)) ↔ gives k u cs.
Proof.
  rewrite run_field_present by auto with storage. split; [|by right].
  intros [[? [=]]|?]; done.
Qed.

Lemma reached_record_present (cs : list call) u :
  is_Some (record_of (run cs init) u) ↔ gives Used u cs ∨ gives Received u cs.
Proof.
  rewrite run_record_present by auto with storage. split; [|by right].
  intros [[? [=]]|?]; done.
Qed.

End InMemoryHistory.

(** X16: from a fresh [InMemoryStorage], after the calls [cs],
    [get_users_and_scores] returns exactly when every user that was
    given used points in [cs] was also given received points in [cs];
    otherwise it raises [KeyError('POINTS_RECEIVED')], and there is a
    user with used points only. *)
Theorem in_memory_enumeration_history (cs : list call) :
  let r := returned InMemoryStorage.get_users_and_scores
             (run cs InMemoryStorage.init) in
  (returns r = true ↔ ∀ u, gives Used u cs → gives Received u cs) ∧
  (returns r = false →
     r = Raise (KeyError InMemoryStorage.POINTS_RECEIVED) ∧
     ∃ u, gives Used u cs ∧ ¬ gives Received u cs).
Proof.
  intros r. set (s := run cs InMemoryStorage.init) in *.
  assert (well_formed s) as Hwf by (subst s; auto with storage).
  assert (returns r = false →
    r = Raise (KeyError InMemoryStorage.POINTS_RECEIVED) ∧
    ∃ u, gives Used u cs ∧ ¬ gives Received u cs) as Hraise.
  { subst r. unfold returned. rewrite get_users_and_scores_spec. cbn.
    destruct (mapM _ (InMemoryStorage._data s)) as [l|] eqn:El; [done|].
    intros _. split; [done|].
    apply mapM_None, Exists_exists in El as ([u r] & Hin & Hf). cbn in Hf.
    destruct (InMemoryStorage.deref s r !! _) eqn:Ef; [done|].
    assert (record_of s u = Some (InMemoryStorage.deref s r)) as Hrec.
    { unfold record_of. rewrite (pd_lookup_elem u r); [done|by destruct Hwf|done]. }
    assert (¬ gives Received u cs) as Hnr.
    { intros Hg%reached_field_present. fold s in Hg. unfold field_of in Hg.
      rewrite Hrec in Hg. cbn in Hg. rewrite Ef in Hg. by destruct Hg. }
    exists u. split; [|done].
    destruct (proj1 (reached_record_present cs u)) as [?|?]; [|done..].
    fold s. by rewrite Hrec. }
  split; [|done]. split.
  - intros Hok u Hu. destruct r as [l|e] eqn:Er; [|done].
    assert (is_Some (record_of s u)) as [rec Hrec].
    { apply reached_record_present. by left. }
    assert (u ∈ l.*1) as ([u' z] & -> & Hin)%list_elem_of_fmap.
    { rewrite (enumeration_keys s l Er). apply pd_contains_elem.
      unfold record_of in Hrec. apply pd_contains_false_iff_not.
      rewrite pd_contains_false. by destruct (pd_lookup u _). }
    apply reached_field_present. fold s.
    change (is_Some (field_of s u' InMemoryStorage.POINTS_RECEIVED)).
    by rewrite (enumeration_scores s l u' z Hwf Er Hin).
  - intros Hall. destruct (returns r) eqn:Er; [done|].
    destruct (Hraise eq_refl) as (_ & u & Hu & Hn). by destruct Hn; auto.
Qed.

Lemma in_memory_enumeration_history_witness :
  returned InMemoryStorage.get_users_and_scores
    (run [AddUserPointsUsed "carol" 2; AddUserPointsReceived "alice" 1]
       InMemoryStorage.init)
    = Raise (KeyError InMemoryStorage.POINTS_RECEIVED) ∧
  ∃ u, gives Used u [AddUserPointsUsed "carol" 2; AddUserPointsReceived "alice" 1] ∧
       ¬ gives Received u
           [AddUserPointsUsed "carol" 2; AddUserPointsReceived "alice" 1].
Proof.
  apply (proj2 (in_memory_enumeration_history
    [AddUserPointsUsed "carol" 2; AddUserPointsReceived "alice" 1])).
  vm_compute. reflexivity.
Defined.


(** ** How a write changes the enumeration *)

Section InMemoryOrder.
Import InMemoryStorage.
Implicit Types (s : store) (u f : string) (n : Z) (r : ref) (k : counter).

Lemma mapM_fmap_ext {A B} (g g' : A → option B) (h : B → B) (l : list A) :
  Forall (λ x, g' x = h <$> g x) l → mapM g' l = fmap h <$> mapM g l.
Proof.
  induction 1 as [|x l Hx _ IH]; [done|]. cbn. rewrite Hx, IH.
  destruct (g x); cbn; [|done]. by destruct (mapM g l).
Qed.

(** The enumeration, read off the received-points fields of the keys. *)
Lemma enumeration_by_fields s :
  well_formed s →
  returned InMemoryStorage.get_users_and_scores s =
    from_option Ok (Raise (KeyError POINTS_RECEIVED))
      (mapM (λ kr, (kr.1,.) <$> field_of s kr.1 POINTS_RECEIVED) (_data s)).
Proof.
  intros Hwf. unfold returned. rewrite get_users_and_scores_spec. cbn.
  f_equal. apply Forall_mapM_ext, Forall_forall. intros [u r] Hin. cbn.
  unfold field_of, record_of.
  by rewrite (pd_lookup_elem u r) by (done || by destruct Hwf).
Qed.

Lemma field_of_unknown s u f :
  u ∉ pd_keys (_data s) → field_of s u f = None.
Proof.
  intros Hu%pd_lookup_None. unfold field_of, record_of. by rewrite Hu.
Qed.

(** How one write changes the list of keys and the received-points
    fields that the enumeration reads, when every key had the field. *)
Lemma enumeration_after_add s k u n (l : list (string * Z)) :
  well_formed s →
  mapM (λ kr, (kr.1,.) <$> field_of s kr.1 POINTS_RECEIVED) (_data s) = Some l →
  mapM (λ kr, (kr.1,.) <$> field_of (final (add_points (field_name k) u n) s)
                             kr.1 POINTS_RECEIVED)
       (_data (final (add_points (field_name k) u n) s))
  = if decide (u ∈ pd_keys (_data s))
    then match k with
         | Received => Some (bump u n <$> l)
         | Used => Some l
         end
    else match k with
         | Received => Some (l ++ [(u, n)])
         | Used => None
         end.
Proof.
  intros Hwf El. rewrite add_points_data.
  destruct (decide (u ∈ pd_keys (_data s))) as [Hu|Hu].
  - destruct (pd_lookup u (_data s)) as [r|] eqn:E;
      [|by apply pd_lookup_None in E].
    assert (is_Some (field_of s u POINTS_RECEIVED)) as [z Ez].
    { apply pd_lookup_Some, list_elem_of_lookup in E as [i Hi].
      apply mapM_Some in El.
      destruct (Forall2_lookup_l _ _ _ _ _ El Hi) as (y & _ & Hy). cbn in Hy.
      by destruct (field_of s u POINTS_RECEIVED). }
    transitivity (fmap (match k with Received => bump u n | Used => id end)
      <$> mapM (λ kr, (kr.1,.) <$> field_of s kr.1 POINTS_RECEIVED) (_data s)).
    2: { rewrite El. cbn. destruct k; [by rewrite list_fmap_id|done]. }
    apply mapM_fmap_ext, Forall_forall. intros [u' r'] Hin. cbn.
    destruct (decide (u' = u)) as [->|Hne].
    + rewrite Ez. cbn. destruct k.
      * by rewrite add_points_field_ne, Ez by done.
      * rewrite (add_points_field s (field_name Received)) by done.
        change (field_name Received) with POINTS_RECEIVED. rewrite Ez. cbn.
        unfold bump. cbn. by rewrite decide_True.
    + rewrite add_points_field_frame by done.
      destruct (field_of s u' POINTS_RECEIVED); cbn; [|done].
      destruct k; [done|]. unfold bump. cbn. by rewrite decide_False.
  - apply pd_lookup_None in Hu as E. rewrite E, pd_insert_new by done.
    rewrite mapM_snoc. cbn [fst].
    rewrite (Forall_mapM_ext _
      (λ kr, (kr.1,.) <$> field_of s kr.1 POINTS_RECEIVED)).
    2: { apply Forall_forall. intros [u' r'] Hin. cbn.
         rewrite add_points_field_frame; [done..|].
         intros ->. apply Hu, list_elem_of_fmap. by exists (u, r'). }
    rewrite El. cbn. destruct k.
    + by rewrite add_points_field_ne, field_of_unknown by done.
    + rewrite (add_points_field s (field_name Received)) by done.
      change (field_name Received) with POINTS_RECEIVED.
      by rewrite field_of_unknown by done.
Qed.

End InMemoryOrder.


(** X17: how a write changes the enumeration of an [InMemoryStorage], in
    any store that calls can lead to and whose enumeration returns [l0].
    After [add_user_points_received(u, n)] the list is [l0] with [u]'s
    score raised by [n], everyone keeping their place, when [u] is
    listed, and [l0] with [(u, n)] added at the end when it is not.
    After [add_user_points_used(u, n)] the list is [l0] when [u] is
    listed, and the enumeration raises when it is not. *)
Theorem in_memory_enumeration_after_add (cs : list call)
    (l0 : list (string * Z)) (user_id : string) (num : Z) :
  let s := run cs InMemoryStorage.init in
  returned InMemoryStorage.get_users_and_scores s = Ok l0 →
  returned InMemoryStorage.get_users_and_scores
      (final (InMemoryStorage.add_user_points_received user_id num) s)
    = Ok (if decide (user_id ∈ l0.*1)
          then bump user_id num <$> l0 else l0 ++ [(user_id, num)]) ∧
  returned InMemoryStorage.get_users_and_scores
      (final (InMemoryStorage.add_user_points_used user_id num) s)
    = if decide (user_id ∈ l0.*1)
      then Ok l0 else Raise (KeyError InMemoryStorage.POINTS_RECEIVED).
Proof.
  intros s Hl0.
  assert (well_formed s) as Hwf by (subst s; auto with storage).
  pose proof (enumeration_keys s l0 Hl0) as Hkeys.
  rewrite enumeration_by_fields in Hl0 by done.
  destruct (mapM _ (InMemoryStorage._data s)) as [l|] eqn:El; [|done].
  injection Hl0 as ->.
  rewrite add_user_points_received_eq, add_user_points_used_eq.
  rewrite !enumeration_by_fields by auto with storage.
  rewrite (enumeration_after_add s Received _ _ l0) by done.
  rewrite (enumeration_after_add s Used _ _ l0) by done.
  rewrite Hkeys. by destruct (decide _).
Qed.

Lemma in_memory_enumeration_after_add_witness :
  let s := run [AddUserPointsReceived "zoe" 1; AddUserPointsReceived "adam" 2]
             InMemoryStorage.init in
  returned InMemoryStorage.get_users_and_scores
      (final (InMemoryStorage.add_user_points_received "zoe" 3) s)
    = Ok [("zoe", 4); ("adam", 2)] ∧
  returned InMemoryStorage.get_users_and_scores
      (final (InMemoryStorage.add_user_points_used "zoe" 3) s)
    = Ok [("zoe", 1); ("adam", 2)].
Proof.
  intros s.
  apply (in_memory_enumeration_after_add
    [AddUserPointsReceived "zoe" 1; AddUserPointsReceived "adam" 2]
    [("zoe", 1); ("adam", 2)] "zoe" 3).
  vm_compute. reflexivity.
Defined.


(** ** Writes in either order *)

(** X18: in any [InMemoryStorage] that calls can lead to, two [add]
    calls, for any users, counters and integer amounts, leave every
    user with the same record whichever is made first. *)
Theorem in_memory_adds_commute (cs : list call) (k1 k2 : counter)
    (u1 u2 : string) (n1 n2 : Z) (user_id : string) :
  let s := run cs InMemoryStorage.init in
  record_of (run [add k1 u1 n1; add k2 u2 n2] s) user_id
    = record_of (run [add k2 u2 n2; add k1 u1 n1] s) user_id.
Proof.
  intros s. assert (well_formed s) as Hwf by (subst s; auto with storage).
  rewrite !run_cons, !exec_add. cbn [run foldl].
  set (f1 := field_name k1). set (f2 := field_name k2).
  assert (well_formed (final (add_points f1 u1 n1) s)) as Hwf1
    by auto with storage.
  assert (well_formed (final (add_points f2 u2 n2) s)) as Hwf2
    by auto with storage.
  destruct (decide (user_id = u1)) as [E1|H1];
    destruct (decide (user_id = u2)) as [E2|H2]; subst.
  - rewrite !add_points_record by done.
    destruct (decide (f1 = f2)) as [<-|Hf].
    + rewrite !add_points_field by done. cbn.
      rewrite !insert_insert_eq. do 2 f_equal. lia.
    + rewrite !add_points_field_ne by done. cbn.
      by rewrite insert_insert_ne.
  - rewrite add_points_frame, !add_points_record by done.
    rewrite add_points_field_frame by done.
    by rewrite (add_points_frame s f2 u2 n2 u1) by done.
  - rewrite (add_points_frame _ f1 u1 n1 u2), !add_points_record by done.
    rewrite add_points_field_frame by done.
    by rewrite (add_points_frame s f1 u1 n1 u2) by done.
  - by rewrite !add_points_frame by done.
Qed.

(** ** The two backends side by side *)

Section Backends.
Implicit Types (db : gmap string RedisStorage.rvalue)
  (s : InMemoryStorage.store) (u f : string) (n : Z) (k : counter).

Lemma same_records_init : same_records RedisStorage.init InMemoryStorage.init.
Proof. intros u. apply lookup_empty. Qed.

Lemma same_records_hash db s u :
  same_records db s → hash_of db u = Some (default ∅ (record_of s u)).
Proof.
  intros Hsame. unfold hash_of. rewrite (Hsame u).
  by destruct (record_of s u).
Qed.

Lemma same_records_add db s f u n :
  same_records db s → well_formed s →
  returned (incr_points f u n) db = Ok () →
  same_records (final (incr_points f u n) db) (final (add_points f u n) s).
Proof.
  intros Hsame Hwf. unfold returned, final at 1.
  rewrite incr_points_run, (same_records_hash db s u Hsame).
  destruct (_ && _); [intros _; cbn|done]. intros u'.
  destruct (decide (u' = u)) as [->|Hne].
  - rewrite lookup_insert_eq, add_points_record by done. cbn.
    do 4 f_equal. unfold field_of.
    destruct (record_of s u); [done|]. cbn. by rewrite lookup_empty.
  - rewrite lookup_insert_ne, add_points_frame by done. apply Hsame.
Qed.

Lemma returns_unit (r : result ()) : returns r = true → r = Ok ().
Proof. by destruct r as [[]|]. Qed.

Lemma same_records_run (cs : list call) db s :
  same_records db s → well_formed s → redis_accepts cs db = true →
  same_records (run cs db) (run cs s).
Proof.
  revert db s. induction cs as [|c cs IH]; intros db s Hsame Hwf Hacc; [done|].
  cbn [redis_accepts] in Hacc. apply andb_true_iff in Hacc as [Hc Hacc].
  rewrite !run_cons. apply IH; [|auto with storage|done].
  destruct c as [u|u|u n|u|u n|];
    try (by rewrite redis_exec_read, in_memory_exec_read).
  - apply returns_unit in Hc. change (AddUserPointsUsed u n) with (add Used u n).
    rewrite redis_exec_add, exec_add. by apply same_records_add.
  - apply returns_unit in Hc.
    change (AddUserPointsReceived u n) with (add Received u n).
    rewrite redis_exec_add, exec_add. by apply same_records_add.
Qed.

End Backends.


(** X19: the two backends under the same calls.  From a fresh store and
    an empty keyspace, as long as Redis refuses none of the [add] calls,
    every user's Redis hash has the fields and values of the user's
    local record; so [user_exists] gives the same answer in both, a
    counter that Redis reads is read the same locally, and when the
    Redis read fails it raises [TypeError] where the local one returns 0
    or raises [KeyError]. *)
Theorem backends_hold_same_records (cs : list call) :
  redis_accepts cs RedisStorage.init = true →
  let db := run cs RedisStorage.init in
  let s := run cs InMemoryStorage.init in
  same_records db s ∧
  (∀ u, returned (RedisStorage.user_exists u) db
        = returned (InMemoryStorage.user_exists u) s) ∧
  (∀ k u a, returned (get_method k u) db = Ok a →
            returned (get_method k u) s = Ok a) ∧
  (∀ k u e, returned (get_method k u) db = Raise e →
            e = TypeError ∧
            (returned (get_method k u) s = Ok 0 ∨
             returned (get_method k u) s = Raise (KeyError u))).
Proof.
  intros Hacc db s.
  assert (same_records db s) as Hsame.
  { apply same_records_run;
      [apply same_records_init|apply init_well_formed|done]. }
  split; [done|]. split; [|split].
  - intros u. unfold returned. rewrite user_exists_spec.
    unfold RedisStorage.user_exists, RedisStorage.redis_exists. cbn.
    f_equal. apply bool_decide_ext. by rewrite (Hsame u), fmap_is_Some.
  - intros k u a. rewrite get_method_redis, get_method_in_memory.
    intros (h & Hh & Ha)%read_points_Ok. unfold returned.
    rewrite get_points_spec. cbn. rewrite (Hsame u) in Hh.
    destruct (record_of s u) as [rec|]; [|done]. injection Hh as ->.
    by rewrite Ha.
  - intros k u e. rewrite get_method_redis, get_method_in_memory.
    unfold returned. rewrite read_points_spec, get_points_spec. cbn.
    rewrite (Hsame u). destruct (record_of s u) as [rec|]; cbn.
    + destruct (rec !! field_name k); cbn; [done|]. intros [= <-]. eauto.
    + intros [= <-]. eauto.
Qed.

Lemma backends_hold_same_records_witness :
  let cs := [AddUserPointsUsed "bob" 5; AddUserPointsReceived "alice" 2;
             GetUserPointsUsed "dave"; AddUserPointsUsed "bob" (-1)] in
  returned (RedisStorage.user_exists "alice") (run cs RedisStorage.init)
    = returned (InMemoryStorage.user_exists "alice") (run cs InMemoryStorage.init).
Proof.
  intros cs. apply (backends_hold_same_records cs). reflexivity.
Defined.


(** ** A store read off the calls that made it *)

Section History.
Import InMemoryStorage.
Implicit Types (s : store) (u f : string) (n : Z) (r : ref) (k : counter).

Lemma exec_counter (c : call) s k u :
  well_formed s →
  default 0 (field_of (exec c s) u (field_name k))
    = default 0 (field_of s u (field_name k)) + amount_for k u c.
Proof.
  intros Hwf. destruct (call_cases c) as [(k' & u' & n & ->)|Hread].
  2: { rewrite in_memory_exec_read by done.
       destruct c, k; try done; cbn; lia. }
  rewrite exec_add.
  destruct (decide (u' = u)) as [->|Hu].
  - destruct (decide (field_name k' = field_name k)) as [->%field_name_inj|Hk].
    + rewrite add_points_field by done. destruct k; cbn; by rewrite decide_True.
    + rewrite add_points_field_ne by done.
      destruct k, k'; try done; cbn; lia.
  - rewrite add_points_field_frame by done.
    destruct k, k'; cbn; rewrite ?decide_False by done; lia.
Qed.

Lemma run_counter (cs : list call) s k u :
  well_formed s →
  default 0 (field_of (run cs s) u (field_name k))
    = default 0 (field_of s u (field_name k)) + added k u cs.
Proof.
  revert s. induction cs as [|c cs IH]; intros s Hwf.
  - unfold added. cbn. lia.
  - rewrite run_cons, IH, exec_counter by auto with storage.
    unfold added. cbn. unfold total. lia.
Qed.

Lemma exec_keys (c : call) s :
  pd_keys (_data (exec c s)) = note_user (pd_keys (_data s)) c.
Proof.
  destruct (call_cases c) as [(k & u & n & ->)|Hread].
  2: { rewrite in_memory_exec_read by done. by destruct c. }
  rewrite exec_add, add_points_data.
  assert (note_user (pd_keys (_data s)) (add k u n)
          = if decide (u ∈ pd_keys (_data s)) then pd_keys (_data s)
            else pd_keys (_data s) ++ [u]) as -> by (by destruct k).
  destruct (pd_lookup u (_data s)) as [r|] eqn:E.
  - rewrite decide_True; [done|].
    destruct (decide (u ∈ pd_keys (_data s))) as [|Hn]; [done|].
    apply pd_lookup_None in Hn. congruence.
  - rewrite decide_False by (by apply pd_lookup_None).
    rewrite pd_insert_new by done. unfold pd_keys. by rewrite fmap_app.
Qed.

Lemma run_keys (cs : list call) s :
  pd_keys (_data (run cs s)) = foldl note_user (pd_keys (_data s)) cs.
Proof.
  revert s. induction cs as [|c cs IH]; intros s; [done|].
  by rewrite run_cons, IH, exec_keys.
Qed.

End History.

(** X20: a counter of [InMemoryStorage] is the sum of what was added to
    it.  From a fresh store, after any calls [cs], in any order and for
    any users, the [get] method of a counter returns the sum of the
    amounts that the [add] calls of [cs] gave that user on that counter,
    when [cs] has an [add] call for the user at all, and raises
    [KeyError] when it has none. *)
Theorem in_memory_counter_is_sum (cs : list call) (k : counter) (user_id : string) :
  let s := run cs InMemoryStorage.init in
  (gives Used user_id cs ∨ gives Received user_id cs →
   returned (get_method k user_id) s = Ok (added k user_id cs)) ∧
  (¬ (gives Used user_id cs ∨ gives Received user_id cs) →
   returned (get_method k user_id) s = Raise (KeyError user_id)).
Proof.
  intros s. rewrite get_method_in_memory. unfold returned.
  rewrite get_points_spec. cbn.
  pose proof (reached_record_present cs user_id) as Hpres. fold s in Hpres.
  pose proof (run_counter cs InMemoryStorage.init k user_id init_well_formed)
    as Hsum. fold s in Hsum. cbn in Hsum. unfold field_of in Hsum.
  split.
  - intros [rec Hrec]%Hpres. rewrite Hrec in Hsum |- *. cbn in Hsum.
    by rewrite Hsum.
  - intros Hno. destruct (record_of s user_id) eqn:E; [|done].
    destruct Hno. apply Hpres. eauto.
Qed.

Lemma in_memory_counter_is_sum_witness :
  let cs := [AddUserPointsUsed "bob" 5; AddUserPointsReceived "alice" 2;
             AddUserPointsUsed "bob" (-1); GetUsersAndScores;
             AddUserPointsReceived "bob" 7] in
  returned (InMemoryStorage.get_user_points_used "bob")
    (run cs InMemoryStorage.init) = Ok 4 ∧
  returned (InMemoryStorage.get_user_points_used "dave")
    (run cs InMemoryStorage.init) = Raise (KeyError "dave").
Proof.
  intros cs. split.
  - apply (proj1 (in_memory_counter_is_sum cs Used "bob")).
    left. exists 5. left.
  - apply (proj2 (in_memory_counter_is_sum cs Used "dave")).
    intros [[n Hin]|[n Hin]]; vm_compute in Hin;
      repeat (apply elem_of_cons in Hin as [Hin|Hin]; [discriminate Hin|]);
      by apply elem_of_nil in Hin.
Defined.

(** X21: a counter of [RedisStorage] is the sum of what was added to it.
    From the empty keyspace, after any calls [cs] of which Redis refuses
    no [add], the [get] method of a counter returns the sum of the
    amounts that the [add] calls of [cs] gave that user on that counter,
    when [cs] has such a call. *)
Theorem redis_counter_is_sum (cs : list call) (k : counter) (user_id : string) :
  redis_accepts cs RedisStorage.init = true →
  gives k user_id cs →
  returned (get_method k user_id) (run cs RedisStorage.init)
    = Ok (added k user_id cs).
Proof.
  intros Hacc Hgives.
  pose proof (same_records_run cs _ _ same_records_init init_well_formed Hacc
                user_id) as Hsame.
  apply reached_field_present in Hgives as [v Hv].
  pose proof (run_counter cs InMemoryStorage.init k user_id init_well_formed)
    as Hsum. rewrite Hv in Hsum. cbn in Hsum. subst v.
  rewrite get_method_redis. apply read_points_Ok.
  unfold field_of in Hv.
  destruct (record_of (run cs InMemoryStorage.init) user_id) as [rec|];
    [|done].
  exists rec. split; [done|]. exact Hv.
Qed.

Lemma redis_counter_is_sum_witness :
  returned (RedisStorage.get_user_points_used "bob")
    (run [AddUserPointsUsed "bob" 5; AddUserPointsReceived "alice" 2;
          AddUserPointsUsed "bob" (-1)] RedisStorage.init) = Ok 4.
Proof.
  apply (redis_counter_is_sum
    [AddUserPointsUsed "bob" 5; AddUserPointsReceived "alice" 2;
     AddUserPointsUsed "bob" (-1)] Used "bob").
  - reflexivity.
  - exists 5. left.
Defined.

(** X22: [get_users_and_scores] of [InMemoryStorage] lists the users in
    the order in which they were first written: from a fresh store,
    after the calls [cs], the users of the list it returns are the users
    of the [add] calls of [cs], each once, in the order of their first
    [add] call. *)
Theorem in_memory_enumeration_order (cs : list call) (l : list (string * Z)) :
  returned InMemoryStorage.get_users_and_scores (run cs InMemoryStorage.init)
    = Ok l →
  l.*1 = first_writes cs.
Proof.
  intros Hl. rewrite (enumeration_keys _ l Hl). apply run_keys.
Qed.

Lemma in_memory_enumeration_order_witness :
  [("zoe", 4); ("adam", 2)].*1
  = first_writes [AddUserPointsReceived "zoe" 1; AddUserPointsReceived "adam" 2;
                  AddUserPointsReceived "zoe" 3; AddUserPointsUsed "adam" 4].
Proof.
  apply (in_memory_enumeration_order
    [AddUserPointsReceived "zoe" 1; AddUserPointsReceived "adam" 2;
     AddUserPointsReceived "zoe" 3; AddUserPointsUsed "adam" 4]).
  vm_compute. reflexivity.
Defined.

(** X23: in any [InMemoryStorage] that calls can lead to, every user has
    a record of its own: the reference that [_data] holds for a user is
    to an allocated dictionary, and no two users hold the same
    reference. *)
Theorem in_memory_records_not_shared (cs : list call) (u u' : string)
    (r : InMemoryStorage.ref) :
  let s := run cs InMemoryStorage.init in
  pd_lookup u (InMemoryStorage._data s) = Some r →
  (r < length (InMemoryStorage.heap s))%nat ∧
  (pd_lookup u' (InMemoryStorage._data s) = Some r → u = u').
Proof.
  intros s Hu.
  assert (well_formed s) as Hwf by (subst s; auto with storage).
  split; [by eapply well_formed_ref|]. intros Hu'.
  by eapply well_formed_ref_inj.
Qed.

Lemma in_memory_records_not_shared_witness :
  let s := run [AddUserPointsUsed "bob" 5; AddUserPointsUsed "alice" 1]
             InMemoryStorage.init in
  (0 < length (InMemoryStorage.heap s))%nat ∧
  (pd_lookup "alice" (InMemoryStorage._data s) = Some 0%nat → "bob" = "alice").
Proof.
  intros s.
  apply (in_memory_records_not_shared
    [AddUserPointsUsed "bob" 5; AddUserPointsUsed "alice" 1] "bob" "alice" 0%nat).
  reflexivity.
Defined.
